(** * A three-stage pipeline with a feedback channel

    Shallow embedding of [bench/debug/python/04-concurrency/stages.py]:
    [Stage1] (producer), [Stage2] (transform) and [Stage3] (consumer) run as
    three threads that share three FIFO queues.  Each thread is a program
    counter over the lines of its [run] method.  One transition executes
    one queue operation, or one statement on the thread's own variables
    ([Stage2.run] assigns [value], [processed] and its counter and builds
    the feedback record, lines 45-54, in one transition), and the pipeline
    is the interleaving of the three threads. *)

From Stdlib Require Import ZArith String List Bool Lia.
Import ListNotations.
Open Scope Z_scope.

Set Implicit Arguments.

(** ** Data *)

(** The dict built at lines 50-54 of [Stage2.run]. *)
Record Feedback := mkFeedback {
  from_item : Z;
  suggestion : string;
  metric : Z
}.

(** The dict built at line 15 of [Stage1.run].  The key ["processed"] is not
    among the keys of that literal; [Stage2.run] adds it at line 46.  A key
    that is absent is [None]. *)
Record Item := mkItem {
  id : Z;
  value : Z;
  adjustments : list Feedback;
  processed : option bool
}.

(** What travels on the two forward queues: an item, or Python's [None],
    the sentinel of lines 28 and 61. *)
Definition Msg : Type := option Item.

(** ** Queues *)

(** The queue manager ([queue_mgr]) is constructed outside [stages.py];
    [stages.py] calls [put], [get] and [empty] on its three queues. *)
Module Queue.

(** Modelled from the spec: the channels of the queue manager, which is
    not in [stages.py], are bounded FIFO queues with a blocking enqueue,
    a blocking dequeue and a non-blocking emptiness check, as the class
    [queue.Queue], from whose module [stages.py] imports, provides them:
    [put] waits while [maxsize > 0] and the size has reached [maxsize]. *)
Definition full {X : Type} (maxsize : Z) (q : list X) : bool :=
  (0 <? maxsize) && (maxsize <=? Z.of_nat (length q)).

(** [None]: the caller blocks. *)
Definition put {X : Type} (maxsize : Z) (x : X) (q : list X)
  : option (list X) :=
  if full maxsize q then None else Some (q ++ [x]).

(** [None]: the caller blocks. *)
Definition get {X : Type} (q : list X) : option (X * list X) :=
  match q with
  | [] => None
  | x :: q' => Some (x, q')
  end.

Definition empty {X : Type} (q : list X) : bool :=
  match q with
  | [] => true
  | _ :: _ => false
  end.

End Queue.

(** [num_items] is the argument of [Stage1]; the three [max_] fields are the
    [maxsize] of [stage1_to_stage2], [stage2_to_stage3] and [feedback]. *)
Record Config := mkConfig {
  num_items : Z;
  max_12 : Z;
  max_23 : Z;
  max_fb : Z
}.

(** ** Program counters *)

(** [Stage1.run], lines 14-28.  [i] is the loop variable, [item] and [fb]
    the locals of the same names. *)
Inductive PcA :=
| A_for (i : Z)                                  (* line 14: next of range *)
| A_check (i : Z) (item : Item)                  (* line 18: empty() *)
| A_get (i : Z) (item : Item)                    (* line 19: get() *)
| A_count (i : Z) (item : Item) (fb : Feedback)  (* line 20: count += 1 *)
| A_append (i : Z) (item : Item) (fb : Feedback) (* line 22: append(fb) *)
| A_put (i : Z) (item : Item)                    (* line 24 *)
| A_flag                                         (* line 26 *)
| A_sentinel                                     (* line 28 *)
| A_stop.

(** [Stage2.run], lines 39-61. *)
Inductive PcB :=
| B_get                                (* line 40 *)
| B_process (item : Item)              (* lines 45-54 *)
| B_fb (item : Item) (fb : Feedback)   (* line 55 *)
| B_fwd (item : Item)                  (* line 58 *)
| B_flag                               (* line 60 *)
| B_sentinel                           (* line 61 *)
| B_stop.

(** [Stage3.run], lines 72-76. *)
Inductive PcC :=
| C_get                            (* lines 73-75: get(), test for None *)
| C_append (item : Item)           (* line 76: results.append(item) *)
| C_stop.

(** ** State *)

Record State := mkState {
  stage1_to_stage2 : list Msg;
  stage2_to_stage3 : list Msg;
  feedback : list Feedback;
  done_producing : bool;
  done_processing : bool;
  pcA : PcA;
  feedback_count : Z;       (* Stage1.feedback_count *)
  pcB : PcB;
  processed_count : Z;      (* Stage2.processed *)
  pcC : PcC;
  results : list Item       (* Stage3.results *)
}.

(** [__init__] of the three stages, over empty queues and cleared flags. *)
Definition init : State :=
  mkState [] [] [] false false (A_for 0) 0 B_get 0 C_get [].

(** ** Events *)

Inductive Event :=
| EvCreate (item : Item)                   (* line 15 *)
| EvRangeEnd                               (* line 14, range exhausted *)
| EvEmpty (b : bool)                       (* line 18, value of empty() *)
| EvDrain (fb : Feedback)                  (* line 19 *)
| EvCount                                  (* line 20 *)
| EvAppend (item : Item)                   (* line 22, the item after it *)
| EvPut1 (m : Msg)                         (* lines 24 and 28 *)
| EvDoneProducing                          (* line 26 *)
| EvGet1 (m : Msg)                         (* line 40 *)
| EvProcess (item : Item) (fb : Feedback)  (* lines 45-54 *)
| EvFeedback (fb : Feedback)               (* line 55 *)
| EvPut2 (m : Msg)                         (* lines 58 and 61 *)
| EvDoneProcessing                         (* line 60 *)
| EvGet2 (m : Msg)                         (* lines 73-75 *)
| EvCollect (item : Item).                 (* line 76 *)

Inductive Tid := TA | TB | TC.

(** ** The three stages *)

Section Stages.

Variable cfg : Config.

(** Line 15. *)
Definition new_item (i : Z) : Item := mkItem i (i * 10) [] None.

(** Line 22. *)
Definition append_adjustment (item : Item) (fb : Feedback) : Item :=
  mkItem (id item) (value item) (adjustments item ++ [fb]) (processed item).

(** Lines 45-46. *)
Definition transform (item : Item) : Item :=
  mkItem (id item) (value item * 2 + 1) (adjustments item) (Some true).

(** Lines 50-54, with [n] the value of [self.processed]. *)
Definition make_feedback (item : Item) (n : Z) : Feedback :=
  mkFeedback (id item) "increase_rate"%string n.

Definition stepA (s : State) : option (Event * State) :=
  let '(mkState q1 q2 fbq dprod dproc pa fc pb np pc res) := s in
  match pa with
  | A_for i =>
      if i <? num_items cfg
      then Some (EvCreate (new_item i),
                 mkState q1 q2 fbq dprod dproc
                         (A_check i (new_item i)) fc pb np pc res)
      else Some (EvRangeEnd,
                 mkState q1 q2 fbq dprod dproc A_flag fc pb np pc res)
  | A_check i item =>
      if Queue.empty fbq
      then Some (EvEmpty true,
                 mkState q1 q2 fbq dprod dproc (A_put i item) fc pb np pc res)
      else Some (EvEmpty false,
                 mkState q1 q2 fbq dprod dproc (A_get i item) fc pb np pc res)
  | A_get i item =>
      match Queue.get fbq with
      | None => None
      | Some (fb, fbq') =>
          Some (EvDrain fb,
                mkState q1 q2 fbq' dprod dproc (A_count i item fb) fc
                        pb np pc res)
      end
  | A_count i item fb =>
      Some (EvCount,
            mkState q1 q2 fbq dprod dproc (A_append i item fb) (fc + 1)
                    pb np pc res)
  | A_append i item fb =>
      Some (EvAppend (append_adjustment item fb),
            mkState q1 q2 fbq dprod dproc
                    (A_check i (append_adjustment item fb)) fc pb np pc res)
  | A_put i item =>
      match Queue.put (max_12 cfg) (Some item) q1 with
      | None => None
      | Some q1' =>
          Some (EvPut1 (Some item),
                mkState q1' q2 fbq dprod dproc (A_for (i + 1)) fc pb np pc res)
      end
  | A_flag =>
      Some (EvDoneProducing,
            mkState q1 q2 fbq true dproc A_sentinel fc pb np pc res)
  | A_sentinel =>
      match Queue.put (max_12 cfg) None q1 with
      | None => None
      | Some q1' =>
          Some (EvPut1 None,
                mkState q1' q2 fbq dprod dproc A_stop fc pb np pc res)
      end
  | A_stop => None
  end.

Definition stepB (s : State) : option (Event * State) :=
  let '(mkState q1 q2 fbq dprod dproc pa fc pb np pc res) := s in
  match pb with
  | B_get =>
      match Queue.get q1 with
      | None => None
      | Some (None, q1') =>
          Some (EvGet1 None,
                mkState q1' q2 fbq dprod dproc pa fc B_flag np pc res)
      | Some (Some item, q1') =>
          Some (EvGet1 (Some item),
                mkState q1' q2 fbq dprod dproc pa fc (B_process item) np pc res)
      end
  | B_process item =>
      let item' := transform item in
      let fb := make_feedback item' (np + 1) in
      Some (EvProcess item' fb,
            mkState q1 q2 fbq dprod dproc pa fc (B_fb item' fb) (np + 1) pc res)
  | B_fb item fb =>
      match Queue.put (max_fb cfg) fb fbq with
      | None => None
      | Some fbq' =>
          Some (EvFeedback fb,
                mkState q1 q2 fbq' dprod dproc pa fc (B_fwd item) np pc res)
      end
  | B_fwd item =>
      match Queue.put (max_23 cfg) (Some item) q2 with
      | None => None
      | Some q2' =>
          Some (EvPut2 (Some item),
                mkState q1 q2' fbq dprod dproc pa fc B_get np pc res)
      end
  | B_flag =>
      Some (EvDoneProcessing,
            mkState q1 q2 fbq dprod true pa fc B_sentinel np pc res)
  | B_sentinel =>
      match Queue.put (max_23 cfg) None q2 with
      | None => None
      | Some q2' =>
          Some (EvPut2 None,
                mkState q1 q2' fbq dprod dproc pa fc B_stop np pc res)
      end
  | B_stop => None
  end.

Definition stepC (s : State) : option (Event * State) :=
  let '(mkState q1 q2 fbq dprod dproc pa fc pb np pc res) := s in
  match pc with
  | C_get =>
      match Queue.get q2 with
      | None => None
      | Some (None, q2') =>
          Some (EvGet2 None,
                mkState q1 q2' fbq dprod dproc pa fc pb np C_stop res)
      | Some (Some item, q2') =>
          Some (EvGet2 (Some item),
                mkState q1 q2' fbq dprod dproc pa fc pb np (C_append item)
                        res)
      end
  | C_append item =>
      Some (EvCollect item,
            mkState q1 q2 fbq dprod dproc pa fc pb np C_get (res ++ [item]))
  | C_stop => None
  end.

(** One transition of thread [t]; [None] when [t] is blocked or has
    returned. *)
Definition step (t : Tid) (s : State) : option (Event * State) :=
  match t with
  | TA => stepA s
  | TB => stepB s
  | TC => stepC s
  end.

(** All three [run] methods have returned. *)
Definition final (s : State) : bool :=
  match pcA s, pcB s, pcC s with
  | A_stop, B_stop, C_stop => true
  | _, _, _ => false
  end.

(** No thread can move. *)
Definition stuck (s : State) : bool :=
  match stepA s, stepB s, stepC s with
  | None, None, None => true
  | _, _, _ => false
  end.

(** Executions from [init]; the trace lists the most recent event
    first. *)
Inductive Reach : list Event -> State -> Prop :=
| Reach_init : Reach [] init
| Reach_step tr s t e s' :
    Reach tr s -> step t s = Some (e, s') -> Reach (e :: tr) s'.

(** Running a given schedule: each entry names the thread that moves
    next; an entry whose thread cannot move is skipped. *)
Fixpoint exec (sched : list Tid) (tr : list Event) (s : State)
  : list Event * State :=
  match sched with
  | [] => (tr, s)
  | t :: sched' =>
      match step t s with
      | Some (e, s') => exec sched' (e :: tr) s'
      | None => exec sched' tr s
      end
  end.

End Stages.

(** ** Where the items are *)

(** The items of a forward queue, oldest first, sentinel left out. *)
Definition items_of (q : list Msg) : list Item :=
  flat_map (fun m => match m with Some it => [it] | None => [] end) q.

(** The item [Stage1.run] is building. *)
Definition heldA (pa : PcA) : list Item :=
  match pa with
  | A_check _ it | A_get _ it | A_count _ it _ | A_append _ it _
  | A_put _ it => [it]
  | _ => []
  end.

(** The record [Stage1.run] has dequeued (line 19) and not yet appended
    (line 22). *)
Definition heldfb (pa : PcA) : list Feedback :=
  match pa with
  | A_count _ _ fb | A_append _ _ fb => [fb]
  | _ => []
  end.

(** One while [Stage1.run] is between lines 19 and 20: a record is
    dequeued and not yet counted. *)
Definition uncounted (pa : PcA) : Z :=
  match pa with A_count _ _ _ => 1 | _ => 0 end.

(** One while [Stage1.run] is between lines 20 and 22: a record is counted
    and not yet appended. *)
Definition unappended (pa : PcA) : Z :=
  match pa with A_append _ _ _ => 1 | _ => 0 end.

(** The item [Stage2.run] has dequeued and not yet transformed. *)
Definition heldB_pre (pb : PcB) : list Item :=
  match pb with
  | B_process it => [it]
  | _ => []
  end.

(** The item [Stage2.run] has transformed and not yet forwarded. *)
Definition heldB_post (pb : PcB) : list Item :=
  match pb with
  | B_fb it _ | B_fwd it => [it]
  | _ => []
  end.

(** The item [Stage3.run] has dequeued (line 73) and not yet appended to
    its results (line 76). *)
Definition heldC (pc : PcC) : list Item :=
  match pc with
  | C_append it => [it]
  | _ => []
  end.

(** Transformed items, oldest first. *)
Definition downstream (s : State) : list Item :=
  results s ++ heldC (pcC s) ++ items_of (stage2_to_stage3 s)
  ++ heldB_post (pcB s).

(** Items [Stage1] has enqueued that are not yet transformed. *)
Definition upstream (s : State) : list Item :=
  heldB_pre (pcB s) ++ items_of (stage1_to_stage2 s).

(** Every item that exists, in creation order. *)
Definition all_items (s : State) : list Item :=
  downstream s ++ upstream s ++ heldA (pcA s).

(** [0; 1; ...; k-1]. *)
Definition upto (k : Z) : list Z := map Z.of_nat (seq 0 (Z.to_nat k)).

(** How many items [Stage1.run] has enqueued. *)
Definition sentA (cfg : Config) (pa : PcA) : Z :=
  match pa with
  | A_for i | A_check i _ | A_get i _ | A_count i _ _ | A_append i _ _
  | A_put i _ => i
  | A_flag | A_sentinel | A_stop => Z.max 0 (num_items cfg)
  end.

Definition stoppedA (pa : PcA) : bool :=
  match pa with A_stop => true | _ => false end.

Definition runningB (pb : PcB) : bool :=
  match pb with
  | B_get | B_process _ | B_fb _ _ | B_fwd _ => true
  | B_flag | B_sentinel | B_stop => false
  end.

Definition stoppedB (pb : PcB) : bool :=
  match pb with B_stop => true | _ => false end.

Definition runningC (pc : PcC) : bool :=
  match pc with C_get | C_append _ => true | C_stop => false end.

(** An item as [Stage1] makes it, and as [Stage2] leaves it. *)
Definition pre_ok (it : Item) : Prop :=
  value it = id it * 10 /\ processed it = None.

Definition post_ok (it : Item) : Prop :=
  value it = 2 * (id it * 10) + 1 /\ processed it = Some true.

(** How many feedback records [Stage2.run] has enqueued. *)
Definition sent_fb (s : State) : Z :=
  match pcB s with
  | B_fb _ _ => processed_count s - 1
  | _ => processed_count s
  end.

Definition adj_ok (it : Item) : Prop :=
  Forall (fun fb => 0 <= from_item fb < id it) (adjustments it).

(** Total length of the [adjustments] lists. *)
Definition adjustments_total (l : list Item) : Z :=
  Z.of_nat (length (flat_map adjustments l)).

(** ** The invariant on states *)

Record Shape (cfg : Config) (s : State) : Prop := mkShape {
  sh_A : match pcA s with
         | A_for i => 0 <= i <= Z.max 0 (num_items cfg)
         | A_check i it | A_get i it | A_count i it _ | A_append i it _
         | A_put i it =>
             0 <= i < num_items cfg /\ id it = i
         | _ => True
         end;
  sh_ids : map id (downstream s ++ upstream s) = upto (sentA cfg (pcA s));
  sh_np : processed_count s = Z.of_nat (length (downstream s));
  sh_pre : Forall pre_ok (upstream s ++ heldA (pcA s));
  sh_post : Forall post_ok (downstream s);
  sh_q12 : stage1_to_stage2 s =
           map Some (items_of (stage1_to_stage2 s))
           ++ (if stoppedA (pcA s) && runningB (pcB s) then [None] else []);
  sh_B : runningB (pcB s) = false ->
         pcA s = A_stop /\ stage1_to_stage2 s = [];
  sh_q23 : stage2_to_stage3 s =
           map Some (items_of (stage2_to_stage3 s))
           ++ (if stoppedB (pcB s) && runningC (pcC s) then [None] else []);
  sh_C : pcC s = C_stop -> pcB s = B_stop /\ stage2_to_stage3 s = []
}.

(** The invariant on the feedback channel. *)
Record Fb (s : State) : Prop := mkFb {
  fb_cnt : Z.of_nat (length (feedback s)) + feedback_count s
           + uncounted (pcA s) = sent_fb s;
  fb_fc : feedback_count s
          = adjustments_total (all_items s) + unappended (pcA s);
  fb_q : Forall (fun fb => 0 <= from_item fb < sent_fb s) (feedback s);
  fb_adj : Forall adj_ok (all_items s);
  fb_pend : match pcB s with
            | B_fb it fb =>
                fb = make_feedback it (processed_count s)
                /\ id it = processed_count s - 1
            | _ => True
            end;
  fb_get : match pcA s with
           | A_get _ _ => feedback s <> []
           | _ => True
           end;
  fb_held : match pcA s with
            | A_count i _ fb | A_append i _ fb => 0 <= from_item fb < i
            | _ => True
            end
}.

(** ** Traces *)

(** The events of a trace that [f] selects, oldest first. *)
Definition collect {X : Type} (f : Event -> option X) (tr : list Event)
  : list X :=
  flat_map (fun e => match f e with Some x => [x] | None => [] end) (rev tr).

(** Items created at line 15. *)
Definition ev_create (e : Event) : option Item :=
  match e with EvCreate it => Some it | _ => None end.

(** Items enqueued at line 24. *)
Definition ev_put1 (e : Event) : option Item :=
  match e with EvPut1 (Some it) => Some it | _ => None end.

(** Records dequeued at line 19. *)
Definition ev_drain (e : Event) : option Feedback :=
  match e with EvDrain fb => Some fb | _ => None end.

(** Items dequeued at line 40. *)
Definition ev_get1 (e : Event) : option Item :=
  match e with EvGet1 (Some it) => Some it | _ => None end.

(** Records built at lines 50-54. *)
Definition ev_made (e : Event) : option Feedback :=
  match e with EvProcess _ fb => Some fb | _ => None end.

(** Records enqueued at line 55. *)
Definition ev_feedback (e : Event) : option Feedback :=
  match e with EvFeedback fb => Some fb | _ => None end.

(** Items enqueued at line 58. *)
Definition ev_put2 (e : Event) : option Item :=
  match e with EvPut2 (Some it) => Some it | _ => None end.

(** The record that [Stage2.run] builds for its [k]-th item, counting from
    zero: the ids are consecutive, so the item has id [k], and the counter
    has just become [k + 1]. *)
Definition fb_of (k : Z) : Feedback :=
  mkFeedback k "increase_rate"%string (k + 1).

(** How many items [Stage2.run] has dequeued. *)
Definition consumedB (s : State) : Z :=
  match pcB s with
  | B_process _ => processed_count s + 1
  | _ => processed_count s
  end.

(** The invariant that ties a trace to the state it leads to. *)
Record Tr (cfg : Config) (tr : list Event) (s : State) : Prop := mkTr {
  tr_create : map id (collect ev_create tr)
              = upto (sentA cfg (pcA s) + Z.of_nat (length (heldA (pcA s))));
  tr_put1 : map id (collect ev_put1 tr) = upto (sentA cfg (pcA s));
  tr_drain : Z.of_nat (length (collect ev_drain tr))
             = feedback_count s + uncounted (pcA s);
  tr_get1 : map id (collect ev_get1 tr) = upto (consumedB s);
  tr_made : collect ev_made tr = map fb_of (upto (processed_count s));
  tr_feedback : collect ev_feedback tr = map fb_of (upto (sent_fb s));
  tr_fwd : match pcB s with
           | B_fwd it =>
               exists fb, In (EvFeedback fb) tr /\ from_item fb = id it
           | _ => True
           end;
  tr_stopA : pcA s = A_stop -> In (EvPut1 None) tr;
  tr_stopB : pcB s = B_stop -> In (EvPut2 None) tr
}.

(** ** A bound on what is left to do *)

Section Measure.

Variable cfg : Config.

(** The number of items of the run: [len(range(num_items))]. *)
Definition item_total : Z := Z.max 0 (num_items cfg).

(** Transitions [Stage1.run] can still make, not counting the passes of
    its [while] loop that it has not begun. *)
Definition muA (pa : PcA) : Z :=
  match pa with
  | A_for i => 4 * (item_total - i) + 4
  | A_check i _ => 4 * (item_total - i) + 3
  | A_get i _ => 4 * (item_total - i) + 2
  | A_count i _ _ => 4 * (item_total - i) + 1
  | A_append i _ _ => 4 * (item_total - i) + 4
  | A_put i _ => 4 * (item_total - i) + 1
  | A_flag => 3
  | A_sentinel => 2
  | A_stop => 0
  end.

Definition muB (pb : PcB) (np : Z) : Z :=
  match pb with
  | B_get => 4 * (item_total - np) + 4
  | B_process _ => 4 * (item_total - np) + 3
  | B_fb _ _ => 4 * (item_total - np) + 6
  | B_fwd _ => 4 * (item_total - np) + 5
  | B_flag => 3
  | B_sentinel => 2
  | B_stop => 0
  end.

Definition muC (pc : PcC) (res : list Item) : Z :=
  match pc with
  | C_get => 2 * (item_total - Z.of_nat (length res)) + 1
  | C_append _ => 2 * (item_total - Z.of_nat (length res))
  | C_stop => 0
  end.

(** The records [Stage1.run] can count: it checks for feedback for the
    last time before it enqueues its last item, so the record of that item
    is not among them. *)
Definition readable : Z := Z.max 0 (num_items cfg - 1).

(** Every pass of the [while] loop of [Stage1.run] takes one of the
    [readable] records out of the feedback queue: four transitions each
    (lines 18, 19, 20 and 22). *)
Definition mu (s : State) : Z :=
  muA (pcA s) + 4 * (readable - feedback_count s)
  + muB (pcB s) (processed_count s)
  + muC (pcC s) (results s).

(** The value of [mu] at [init]: no run has more transitions. *)
Definition run_bound : Z := 10 * item_total + 4 * readable + 9.

End Measure.

(** ** Running the pipeline *)

Inductive Outcome :=
| Returned (tr : list Event) (s : State)   (* the three threads returned *)
| Blocked (tr : list Event) (s : State)    (* no thread can move *)
| OutOfFuel (tr : list Event) (s : State).

Section Run.

Variable cfg : Config.

(** The thread the scheduler names moves if it can; if it is blocked,
    another one that can move does. *)
Definition pick (t : Tid) (s : State) : option (Event * State) :=
  match step cfg t s with
  | Some r => Some r
  | None =>
      match stepA cfg s with
      | Some r => Some r
      | None =>
          match stepB cfg s with
          | Some r => Some r
          | None => stepC s
          end
      end
  end.

(** The three threads under the scheduler [sched], which names a thread
    for each transition; [k] counts the transitions made so far. *)
Fixpoint run (sched : nat -> Tid) (fuel : nat) (k : nat)
         (tr : list Event) (s : State) : Outcome :=
  if final s then Returned tr s
  else
    match fuel with
    | O => OutOfFuel tr s
    | S fuel' =>
        match pick (sched k) s with
        | Some (e, s') => run sched fuel' (S k) (e :: tr) s'
        | None => Blocked tr s
        end
    end.

(** What [run] reports is what happened. *)
Definition outcome_ok (o : Outcome) : Prop :=
  match o with
  | Returned tr s => Reach cfg tr s /\ final s = true
  | Blocked tr s => Reach cfg tr s /\ final s = false /\ stuck cfg s = true
  | OutOfFuel tr s => Reach cfg tr s /\ final s = false
  end.

(** Enough for any run: see [Reach_length]. *)
Definition enough_fuel : nat := Z.to_nat (run_bound cfg).

(** The feedback queue is unbounded, or can hold one record per item. *)
Definition feedback_roomy : Prop :=
  max_fb cfg <= 0 \/ item_total cfg <= max_fb cfg.

End Run.

(** Modelled from the spec: the entry point [run_pipeline] and the queue
    manager it builds are outside [stages.py].  It wires the three channels
    with the given capacity, starts the three stages, waits for all three to
    return and gives back the result sequence of the consumer; a capacity
    that is not positive is refused when the pipeline is built. *)
Inductive PipelineResult :=
| InvalidCapacity
| Hang
| Result (items : list Item).

(** Modelled from the spec: the queue manager, which is not in
    [stages.py], gives the three channels the one capacity of the
    pipeline. *)
Definition pipeline_config (item_count channel_capacity : Z) : Config :=
  mkConfig item_count channel_capacity channel_capacity channel_capacity.

(** Modelled from the spec: [run_pipeline], which is not in [stages.py],
    under a scheduler [sched] for the three threads it starts.  [Hang]: the
    three threads never all return, so the wait for them does not end. *)
Definition run_pipeline (item_count channel_capacity : Z)
           (sched : nat -> Tid) : PipelineResult :=
  if channel_capacity <=? 0 then InvalidCapacity
  else
    let cfg := pipeline_config item_count channel_capacity in
    match run cfg sched (enough_fuel cfg) 0 [] init with
    | Returned _ s => Result (results s)
    | Blocked _ _ | OutOfFuel _ _ => Hang
    end.

(** The scheduler that always names [Stage1]: with [pick], the producer
    moves whenever it can, the transform when the producer cannot, the
    consumer when neither can. *)
Definition producer_first : nat -> Tid := fun _ => TA.

(** Under [producer_first] the producer keeps the first queue full: when it
    is about to make item [j], the queue holds [j] items or is full; at
    line 24 one slot may be free. *)
Definition ahead (cfg : Config) (s : State) : Prop :=
  match pcA s with
  | A_for j | A_check j _ | A_get j _ | A_count j _ _ | A_append j _ _ =>
      Z.min j (max_12 cfg) <= Z.of_nat (length (stage1_to_stage2 s))
  | A_put j _ =>
      Z.min j (max_12 cfg - 1) <= Z.of_nat (length (stage1_to_stage2 s))
  | A_flag | A_sentinel | A_stop => True
  end.

(** So the records it can have drained are those of the items that have
    left a full first queue before its last check. *)
Definition few_drained (cfg : Config) (s : State) : Prop :=
  feedback_count s <= Z.max 0 (num_items cfg - 1 - max_12 cfg).

(** A scheduler that follows a list, then lets [Stage1] go first. *)
Definition schedule (l : list Tid) : nat -> Tid := fun k => nth k l TA.

(** A schedule for two items and queues of capacity one: [Stage1] checks
    for feedback for its last item before [Stage2] has enqueued any. *)
Definition deadlock_schedule : list Tid :=
  [TA; TA; TA; TA; TA; TB; TB; TB; TB; TA; TB; TB].

(** A schedule for three items and queues of capacity one: the producer
    moves whenever it can, and has made its last check for feedback when
    the transform enqueues its first record. *)
Definition starved_schedule : list Tid :=
  [TA; TA; TA; TA; TA; TB; TA; TA; TA; TB; TB; TB; TB; TA; TA; TA; TB; TC].

(** Three items through forward queues of capacity one and a feedback
    queue of capacity three, the three threads taking turns: the state
    after 14 rounds, where [Stage1] is at line 22 with a record it has
    counted and not yet appended, and the state at the end. *)
Definition demo_config : Config := mkConfig 3 1 1 3.

Definition rounds (n : nat) : list Tid := concat (repeat [TA; TB; TC] n).

Definition demo_run : list Event * State :=
  Eval vm_compute in exec demo_config (rounds 14) [] init.

Definition demo_end : list Event * State :=
  Eval vm_compute in exec demo_config (rounds 24) [] init.

(** The same run, stopped when [Stage1] has found the feedback queue not
    empty and is about to dequeue. *)
Definition demo_drain : list Event * State :=
  Eval vm_compute in
    exec demo_config [TA; TA; TA; TB; TB; TB; TA; TA] [] init.

(** The same run, stopped when [Stage1] has dequeued that record (line 19)
    and not yet counted it (line 20). *)
Definition demo_dequeued : list Event * State :=
  Eval vm_compute in
    exec demo_config [TA; TA; TA; TB; TB; TB; TA; TA; TA] [] init.



(** ** How a transition may change the items *)






(** Two items through queues of capacity one, under [deadlock_schedule]
    and then as far as the three threads can go. *)
Definition demo_stuck : list Event * State :=
  Eval vm_compute in
    exec (pipeline_config 2 1) (deadlock_schedule ++ [TA; TA; TA; TC; TC])
         [] init.

(** ** The ledger of feedback records *)

(** The records [Stage1] has dequeued, in the order it dequeued them: the
    [adjustments] of the items, in the order of their creation, and then
    the record it holds between lines 19 and 22. *)
Definition drained (s : State) : list Feedback :=
  flat_map adjustments (all_items s) ++ heldfb (pcA s).

(** The records dequeued, then those that wait in the feedback queue. *)
Definition ledger (s : State) : list Feedback := drained s ++ feedback s.

(** The two flags of the queue manager, against the program counters:
    [done_producing] is set at line 26, [done_processing] at line 60. *)
Definition flags_ok (s : State) : Prop :=
  done_producing s
  = match pcA s with A_sentinel | A_stop => true | _ => false end
  /\ done_processing s
     = match pcB s with B_sentinel | B_stop => true | _ => false end.

(** A state with other values in the two flags. *)
Definition with_flags (b1 b2 : bool) (s : State) : State :=
  mkState (stage1_to_stage2 s) (stage2_to_stage3 s) (feedback s) b1 b2
          (pcA s) (feedback_count s) (pcB s) (processed_count s)
          (pcC s) (results s).

(** What is in an item apart from its [adjustments]. *)
Definition plain (it : Item) : Z * Z * option bool :=
  (id it, value it, processed it).

(** The item with id [i], transformed. *)
Definition plain_result (i : Z) : Z * Z * option bool :=
  (i, 2 * (i * 10) + 1, Some true).

(** * Layered configuration: [deep_merge]

    Shallow embedding of [bench/debug/python/03-crash/merger.py]. *)

(** Keys of a Python dict are compared with [==]. *)
Class EqDec (K : Type) := eq_dec : forall a b : K, {a = b} + {a <> b}.

#[export] Instance string_EqDec : EqDec string := string_dec.

Section Merger.

Context {K : Type} {K_eq : EqDec K} {A : Type}.

#[local] Unset Elimination Schemes.

(** A Python value as [deep_merge] sees it: [isinstance(v, dict)] (lines
    22-23) tells a dict from everything else.  A dict is the list of its
    entries in insertion order, which is the order of [overlay.items()] at
    line 19; [A] holds the values that are no dict ([None], numbers,
    strings, lists). *)
Inductive Val : Type :=
| Atom (a : A)
| Dict (d : list (K * Val)).

#[local] Set Elimination Schemes.

Definition PyDict : Type := list (K * Val).

(** [result[key]], and [key in result] as [dict_get key result <> None]. *)
Fixpoint dict_get (k : K) (d : PyDict) : option Val :=
  match d with
  | [] => None
  | (k', v) :: d' => if eq_dec k k' then Some v else dict_get k d'
  end.

(** [result[key] = v]: a key that is present keeps its position, a new key
    goes to the end. *)
Fixpoint dict_set (k : K) (v : Val) (d : PyDict) : PyDict :=
  match d with
  | [] => [(k, v)]
  | (k', v') :: d' =>
      if eq_dec k k' then (k', v) :: d' else (k', v') :: dict_set k v d'
  end.

(** [deep_merge], lines 17-29, with the overlay wrapped as a value so that
    the recursive call of line 25 is on a part of it.  Values are immutable
    here, so [copy.deepcopy(base)] (line 17) is [base] itself and [base] is
    never changed; [loop] is the [for] of line 19 over [overlay.items()],
    threading [result]. *)
Fixpoint merge_val (overlay : Val) (result : PyDict) {struct overlay} : PyDict :=
  match overlay with
  | Atom _ => result
  | Dict od =>
      (fix loop (items : list (K * Val)) (result : PyDict) {struct items}
         : PyDict :=
         match items with
         | [] => result
         | (key, value) :: items' =>
             loop items'
               (match dict_get key result, value with
                | Some (Dict bd), Dict _ =>
                    dict_set key (Dict (merge_val value bd)) result
                | _, _ => dict_set key value result
                end)
         end) od result
  end.

Definition deep_merge (base overlay : PyDict) : PyDict :=
  merge_val (Dict overlay) base.

(** One round of the loop (lines 20-27). *)
Definition merge_entry (key : K) (value : Val) (result : PyDict) : PyDict :=
  match dict_get key result, value with
  | Some (Dict bd), Dict od => dict_set key (Dict (deep_merge bd od)) result
  | _, _ => dict_set key value result
  end.

(** What one round stores under [key], given what [result] had there. *)
Definition merged_value (old : option Val) (value : Val) : Val :=
  match old, value with
  | Some (Dict bd), Dict od => Dict (deep_merge bd od)
  | _, _ => value
  end.

(** [list(d)]: the keys in insertion order. *)
Definition keys (d : PyDict) : list K := map fst d.

(** [key in d]. *)
Definition has_key (k : K) (d : PyDict) : bool :=
  match dict_get k d with Some _ => true | None => false end.

Definition missing_from (d : PyDict) (k : K) : bool := negb (has_key k d).

(** The lists that are Python dicts: no key occurs twice, at any depth. *)
Inductive wf : Val -> Prop :=
| wf_atom a : wf (Atom a)
| wf_dict d :
    NoDup (keys d) -> (forall k v, In (k, v) d -> wf v) -> wf (Dict d).

End Merger.

Arguments Val K A : clear implicits.
Arguments PyDict K A : clear implicits.
Arguments Atom {K A} a.
Arguments Dict {K A} d.

(** The values of a configuration file that are no dict. *)
Inductive PyAtom :=
| PyNone
| PyInt (z : Z)
| PyStr (s : string).

Definition demo_base : PyDict string PyAtom :=
  [("database"%string,
    Dict [("host"%string, Atom (PyStr "localhost"));
          ("port"%string, Atom (PyInt 5432))]);
   ("debug"%string, Atom (PyInt 0));
   ("cache"%string, Dict [("ttl"%string, Atom (PyInt 60))])].

Definition demo_overlay : PyDict string PyAtom :=
  [("database"%string,
    Dict [("port"%string, Atom (PyInt 6543));
          ("user"%string, Atom (PyStr "app"))]);
   ("cache"%string, Atom PyNone);
   ("name"%string, Atom (PyStr "production"))].

(** ** Lists *)

Lemma collect_cons {X : Type} (f : Event -> option X) e tr :
  collect f (e :: tr)
  = collect f tr ++ match f e with Some x => [x] | None => [] end.
Proof.
  unfold collect. simpl. rewrite flat_map_app. simpl. now rewrite app_nil_r.
Qed.

Lemma uncounted_bounds pa : 0 <= uncounted pa <= 1.
Proof. destruct pa; simpl; lia. Qed.

Lemma unappended_bounds pa : 0 <= unappended pa <= 1.
Proof. destruct pa; simpl; lia. Qed.

Lemma total_nil : adjustments_total [] = 0.
Proof. reflexivity. Qed.

Lemma total_app l1 l2 :
  adjustments_total (l1 ++ l2) = adjustments_total l1 + adjustments_total l2.
Proof.
  unfold adjustments_total. rewrite flat_map_app, length_app. lia.
Qed.

Lemma total_cons x l :
  adjustments_total (x :: l)
  = Z.of_nat (length (adjustments x)) + adjustments_total l.
Proof.
  unfold adjustments_total. simpl. rewrite length_app. lia.
Qed.

Arguments adjustments_total : simpl never.

Lemma items_of_app q1 q2 : items_of (q1 ++ q2) = items_of q1 ++ items_of q2.
Proof. unfold items_of. apply flat_map_app. Qed.

Lemma items_of_Some x q : items_of (Some x :: q) = x :: items_of q.
Proof. reflexivity. Qed.

Lemma items_of_None q : items_of (None :: q) = items_of q.
Proof. reflexivity. Qed.

Lemma upto_nonneg k : 0 <= k -> Z.of_nat (length (upto k)) = k.
Proof. intros H. unfold upto. rewrite length_map, length_seq. lia. Qed.

Lemma upto_succ k : 0 <= k -> upto (k + 1) = upto k ++ [k].
Proof.
  intros H. unfold upto.
  replace (Z.to_nat (k + 1)) with (S (Z.to_nat k)) by lia.
  rewrite seq_S, map_app. simpl. now rewrite Z2Nat.id.
Qed.

Lemma upto_nth k n x :
  nth_error (upto k) n = Some x -> x = Z.of_nat n.
Proof.
  unfold upto. intros H.
  rewrite nth_error_map, nth_error_seq in H.
  destruct (Nat.ltb n (Z.to_nat k)); simpl in H; congruence.
Qed.

Lemma map_id_mid (l1 l2 : list Item) (x : Item) k :
  map id (l1 ++ x :: l2) = upto k -> id x = Z.of_nat (length l1).
Proof.
  intros H.
  assert (E : nth_error (map id (l1 ++ x :: l2)) (length l1) = Some (id x)).
  { rewrite nth_error_map, nth_error_app2, Nat.sub_diag by lia. reflexivity. }
  rewrite H in E. now apply upto_nth in E.
Qed.

Lemma ids_snoc (d u : list Item) (x : Item) k :
  map id (d ++ u) = upto k -> 0 <= k -> id x = k ->
  map id (d ++ u ++ [x]) = upto (k + 1).
Proof.
  intros H Hk Hx. rewrite app_assoc, map_app, H, upto_succ by lia.
  simpl. now rewrite Hx.
Qed.

Lemma upto_snoc {X : Type} (f : X -> Z) (l : list X) (x : X) k k' :
  map f l = upto k -> 0 <= k -> f x = k -> k' = k + 1 ->
  map f (l ++ [x]) = upto k'.
Proof.
  intros H Hk Hx ->. rewrite map_app, H, upto_succ by lia.
  simpl. now rewrite Hx.
Qed.

Lemma upto_same {X : Type} (f : X -> Z) (l : list X) k k' :
  map f l = upto k -> k' = k -> map f l = upto k'.
Proof. now intros H ->. Qed.

Lemma fb_of_snoc (l : list Feedback) k k' (fb : Feedback) :
  l = map fb_of (upto k) -> 0 <= k -> fb = fb_of k -> k' = k + 1 ->
  l ++ [fb] = map fb_of (upto k').
Proof.
  intros -> Hk -> ->. rewrite upto_succ by lia. now rewrite map_app.
Qed.

Lemma put_Some {X : Type} maxsize (x : X) q q' :
  Queue.put maxsize x q = Some q' -> q' = q ++ [x].
Proof. unfold Queue.put. destruct (Queue.full maxsize q); congruence. Qed.

Lemma head_sentinel (l : list Item) (tl q : list Msg) :
  None :: q = map Some l ++ tl -> l = [] /\ tl = None :: q.
Proof. destruct l; simpl; intros H; [auto | discriminate]. Qed.

Lemma sentinel_tail (b : bool) (q : list Msg) :
  (if b then [None] else []) = None :: q -> b = true /\ q = [].
Proof. destruct b; intros H; [injection H as <-; auto | discriminate]. Qed.

(** Splitting a transition into the cases of its program counter. *)
Ltac split_step H :=
  simpl in H;
  repeat match type of H with
    | context [if ?b then _ else _] => destruct b eqn:?
    | context [match Queue.get ?q with _ => _ end] =>
        destruct q as [|? ?]; simpl in H
    | context [match ?m with Some _ => _ | None => _ end] =>
        is_var m; destruct m
    | context [match Queue.put ?m ?x ?q with _ => _ end] =>
        let E := fresh "Eput" in
        let q' := fresh "q'" in
        destruct (Queue.put m x q) as [q'|] eqn:E;
        [apply put_Some in E; subst q'|]
    end;
  try discriminate H.

Ltac crush_step H := split_step H; injection H as <- <-.

(** The same, for a transition whose event is known. *)
Ltac invert_step H :=
  split_step H; try (injection H as ? ?; subst; try discriminate).

Ltac state_simpl :=
  cbn [stage1_to_stage2 stage2_to_stage3 feedback done_producing
       done_processing pcA feedback_count pcB processed_count pcC results
       heldA heldB_pre heldB_post heldC heldfb uncounted unappended
       sentA stoppedA runningB stoppedB runningC
       id value adjustments processed from_item suggestion metric
       new_item append_adjustment transform make_feedback
       length app map andb] in *;
  change (items_of nil) with (@nil Item) in *.

Ltac forall_simpl :=
  repeat rewrite ?items_of_app, ?map_app, ?Forall_app, ?Forall_cons_iff,
    ?length_app, ?app_nil_r in *;
  simpl in *.

Ltac forall_norm :=
  repeat (progress
    (repeat rewrite ?items_of_app, ?items_of_Some, ?items_of_None,
       ?map_app, ?Forall_app, ?Forall_cons_iff,
       ?length_app, ?app_nil_r in *;
     state_simpl)).

Ltac total_simpl :=
  repeat (progress
    (repeat rewrite ?items_of_app, ?items_of_Some, ?items_of_None,
       ?total_app, ?total_cons, ?total_nil,
       ?length_app, ?Nat2Z.inj_add, ?app_nil_r in *;
     state_simpl)).

(** An older event stays in the trace. *)
Ltac fwd_keep Hfwd pb :=
  destruct pb; auto;
  let fb := fresh "fb" in
  let Hin := fresh "Hin" in
  let Hid := fresh "Hid" in
  destruct Hfwd as (fb & Hin & Hid);
  exists fb; split; [right; exact Hin | exact Hid].

(** A consequence that needs a program counter the state does not have. *)
Ltac not_yet HB :=
  let Hr := fresh in
  intros Hr; destruct (HB Hr) as [? ?]; try discriminate; subst; auto.

Section Invariants.

Variable cfg : Config.

Lemma Shape_init : Shape cfg init.
Proof.
  constructor; simpl; try (constructor; fail); auto; try lia; try discriminate.
Qed.

Lemma Shape_stepA s e s' :
  Shape cfg s -> stepA cfg s = Some (e, s') -> Shape cfg s'.
Proof.
  intros [HA Hids Hnp Hpre Hpost Hq12 HB Hq23 HC] H.
  destruct s as [q1 q2 fbq dprod dproc pa fc pb np pc res].
  unfold downstream, upstream in *; simpl in *.
  destruct pa; crush_step H; subst;
    constructor; unfold downstream, upstream; simpl in *; auto.
  all: try lia.
  all: try (not_yet HB; fail).
  all: try (forall_simpl; unfold pre_ok, new_item, append_adjustment in *;
            simpl; intuition (auto; lia); fail).
  - (* the range is exhausted: i is the number of items *)
    rewrite Hids. f_equal. apply Z.ltb_ge in Heqb. lia.
  - (* line 24 *)
    destruct HA as [HA Hid].
    rewrite items_of_app. simpl. rewrite (app_assoc (heldB_pre pb)).
    apply ids_snoc; auto; lia.
  - rewrite items_of_app, map_app, app_nil_r in *. simpl. now rewrite <- Hq12.
  - destruct (runningB pb) eqn:Hr; [|destruct (HB eq_refl); discriminate].
    rewrite items_of_app, app_nil_r in *. simpl. rewrite ?app_nil_r.
    now rewrite <- Hq12.
Qed.

Lemma Shape_stepB s e s' :
  Shape cfg s -> stepB cfg s = Some (e, s') -> Shape cfg s'.
Proof.
  intros [HA Hids Hnp Hpre Hpost Hq12 HB Hq23 HC] H.
  destruct s as [q1 q2 fbq dprod dproc pa fc pb np pc res].
  unfold downstream, upstream in *; simpl in *.
  destruct pb; crush_step H; subst;
    constructor; unfold downstream, upstream; simpl in *; auto.
  all: try lia.
  all: try discriminate.
  all: try (not_yet HC; fail).
  all: try (forall_simpl; unfold pre_ok, post_ok, transform in *;
            simpl; intuition (auto; lia); fail).
  - (* line 40, an item *) now injection Hq12.
  - (* line 40, the sentinel *)
    apply (head_sentinel (items_of q1)) in Hq12 as [E1 E2].
    apply sentinel_tail in E2 as [_ ->]. now rewrite andb_false_r.
  - intros _.
    apply (head_sentinel (items_of q1)) in Hq12 as [E1 E2].
    apply sentinel_tail in E2 as [E2 ->].
    destruct pa; simpl in *; try discriminate. auto.
  - (* lines 45-47: the item changes side, its id stays *)
    rewrite <- Hids, !map_app. simpl. now rewrite <- !app_assoc.
  - apply Forall_cons_iff in Hpre as [[Hv Hp] _].
    rewrite !Forall_app in *. destruct Hpost as (? & ? & ? & _).
    repeat split; auto. constructor; [|constructor].
    unfold post_ok, transform; cbn [value id processed].
    split; [lia | reflexivity].
  - (* line 58 *)
    rewrite items_of_app, map_app, app_nil_r in *. simpl.
    now rewrite <- Hq23.
  - (* line 61 *)
    destruct pc; simpl; try (destruct (HC eq_refl); discriminate);
      rewrite items_of_app, app_nil_r in *; simpl; rewrite ?app_nil_r;
      now rewrite <- Hq23.
Qed.

Lemma Shape_stepC s e s' :
  Shape cfg s -> stepC s = Some (e, s') -> Shape cfg s'.
Proof.
  intros [HA Hids Hnp Hpre Hpost Hq12 HB Hq23 HC] H.
  destruct s as [q1 q2 fbq dprod dproc pa fc pb np pc res].
  unfold downstream, upstream in *; simpl in *.
  destruct pc; crush_step H; subst;
    constructor; unfold downstream, upstream; simpl in *; auto.
  all: try lia.
  all: try discriminate.
  all: try (forall_simpl; unfold pre_ok, post_ok, transform in *;
            simpl; intuition (auto; lia); fail).
  - (* line 73, an item: it leaves the queue *)
    now injection Hq23.
  - (* lines 73-75, the sentinel *)
    apply (head_sentinel (items_of q2)) in Hq23 as [E1 E2].
    apply sentinel_tail in E2 as [_ ->]. now rewrite andb_false_r.
  - intros _.
    apply (head_sentinel (items_of q2)) in Hq23 as [E1 E2].
    apply sentinel_tail in E2 as [E2 ->].
    destruct pb; simpl in *; try discriminate. auto.
  - (* line 76: the item goes to the results *)
    rewrite <- Hids. now rewrite <- (app_assoc res [item]).
  - now rewrite <- (app_assoc res [item]).
Qed.

Lemma Shape_step t s e s' :
  Shape cfg s -> step cfg t s = Some (e, s') -> Shape cfg s'.
Proof.
  destruct t; simpl;
    eauto using Shape_stepA, Shape_stepB, Shape_stepC.
Qed.

Lemma Reach_Shape tr s : Reach cfg tr s -> Shape cfg s.
Proof.
  induction 1; eauto using Shape_init, Shape_step.
Qed.

Lemma Shape_bounds s :
  Shape cfg s ->
  0 <= processed_count s <= sentA cfg (pcA s)
  /\ sentA cfg (pcA s) <= Z.max 0 (num_items cfg).
Proof.
  intros [HA Hids Hnp _ _ _ _ _ _].
  assert (H0 : 0 <= sentA cfg (pcA s) <= Z.max 0 (num_items cfg))
    by (destruct (pcA s); simpl in *; lia).
  apply (f_equal (@length Z)) in Hids.
  rewrite length_map, length_app in Hids.
  pose proof (upto_nonneg (proj1 H0)). lia.
Qed.

Lemma Fb_init : Fb init.
Proof. constructor; simpl; auto; constructor. Qed.

Lemma Fb_stepA s e s' :
  Shape cfg s -> Fb s -> stepA cfg s = Some (e, s') -> Fb s'.
Proof.
  intros HS [Hcnt Hfc Hq Hadj Hpend Hget Hheld] H.
  pose proof (Shape_bounds HS) as Hb.
  pose proof (sh_A HS) as HA. clear HS.
  destruct s as [q1 q2 fbq dprod dproc pa fc pb np pc res].
  unfold all_items, downstream, upstream, sent_fb in *; state_simpl.
  destruct pa; crush_step H; subst;
    constructor; unfold all_items, downstream, upstream, sent_fb;
    state_simpl; auto.
  all: try lia.
  all: try discriminate.
  all: try (total_simpl; lia).
  all: try (forall_norm; unfold adj_ok in *; state_simpl;
            intuition (auto; lia); fail).
  - (* line 18 answered False *) destruct fbq; discriminate.
  - (* line 19: the record is older than the item being built *)
    apply Forall_cons_iff in Hq as [Hf _]. destruct pb; lia.
  - (* line 22 *)
    forall_norm. unfold adj_ok in *. state_simpl. forall_norm.
    intuition (auto; lia).
Qed.

Lemma Fb_stepB s e s' :
  Shape cfg s -> Fb s -> stepB cfg s = Some (e, s') -> Fb s'.
Proof.
  intros HS [Hcnt Hfc Hq Hadj Hpend Hget Hheld] H.
  pose proof (Shape_bounds HS) as Hb.
  pose proof (sh_ids HS) as Hids.
  pose proof (sh_np HS) as Hnp. clear HS.
  destruct s as [q1 q2 fbq dprod dproc pa fc pb np pc res].
  unfold all_items, downstream, upstream, sent_fb in *; state_simpl.
  destruct pb; crush_step H;
    constructor; unfold all_items, downstream, upstream, sent_fb;
    state_simpl; auto.
  all: try lia.
  all: try discriminate.
  all: try (total_simpl; lia).
  all: try (forall_norm; unfold adj_ok in *; state_simpl;
            intuition (auto; lia); fail).
  - replace (np + 1 - 1) with np by lia. exact Hq.
  - (* lines 45-54: the id of the item is the old counter *)
    split; [reflexivity|].
    apply map_id_mid in Hids. lia.
  - (* line 55 *)
    destruct Hpend as [-> Hid].
    apply Forall_app; split.
    + eapply Forall_impl; [|exact Hq]. simpl. intros; lia.
    + constructor; [|constructor]. state_simpl.
      rewrite !length_app in Hnp. cbn [length] in Hnp. lia.
  - destruct pa; auto. destruct fbq; discriminate.
Qed.

Lemma Fb_stepC s e s' :
  Shape cfg s -> Fb s -> stepC s = Some (e, s') -> Fb s'.
Proof.
  intros HS [Hcnt Hfc Hq Hadj Hpend Hget Hheld] H.
  pose proof (sh_np HS) as Hnp. clear HS.
  destruct s as [q1 q2 fbq dprod dproc pa fc pb np pc res].
  unfold all_items, downstream, upstream, sent_fb in *; state_simpl.
  destruct pc; crush_step H;
    constructor; unfold all_items, downstream, upstream, sent_fb;
    state_simpl; auto.
  all: try lia.
  all: try discriminate.
  all: try (total_simpl; lia).
  all: try (forall_norm; unfold adj_ok in *; state_simpl;
            intuition (auto; lia); fail).
Qed.

Lemma Fb_step t s e s' :
  Shape cfg s -> Fb s -> step cfg t s = Some (e, s') -> Fb s'.
Proof.
  destruct t; simpl; eauto using Fb_stepA, Fb_stepB, Fb_stepC.
Qed.

Lemma Reach_Fb tr s : Reach cfg tr s -> Fb s.
Proof.
  induction 1; eauto using Fb_init, Fb_step, Reach_Shape.
Qed.

Lemma Tr_init : Tr cfg [] init.
Proof. constructor; simpl; auto; discriminate. Qed.

Lemma Tr_stepA tr s e s' :
  Shape cfg s -> Tr cfg tr s -> stepA cfg s = Some (e, s') ->
  Tr cfg (e :: tr) s'.
Proof.
  intros HS [Hcr Hp1 Hdr Hg1 Hmade Hfb Hfwd HsA HsB] H.
  pose proof (sh_A HS) as HA. clear HS.
  destruct s as [q1 q2 fbq dprod dproc pa fc pb np pc res].
  unfold sent_fb, consumedB in *; state_simpl.
  destruct pa; crush_step H;
    constructor; unfold sent_fb, consumedB; state_simpl;
    rewrite ?collect_cons; cbn [ev_create ev_put1 ev_drain ev_get1 ev_made
                                ev_feedback ev_put2];
    rewrite ?app_nil_r; auto.
  all: try discriminate.
  all: try (intros; right; auto; fail).
  all: try (rewrite length_app; cbn [length]; lia).
  all: try (fwd_keep Hfwd pb; fail).
  all: try (apply Z.ltb_ge in Heqb).
  all: try (eapply upto_snoc; eauto; cbn [id new_item]; lia).
  all: try (eapply upto_same; eauto; lia).
  all: try lia.
  (* line 28 *)
  intros _. now left.
Qed.

Lemma Tr_stepB tr s e s' :
  Shape cfg s -> Fb s -> Tr cfg tr s -> stepB cfg s = Some (e, s') ->
  Tr cfg (e :: tr) s'.
Proof.
  intros HS HF [Hcr Hp1 Hdr Hg1 Hmade Hfb Hfwd HsA HsB] H.
  pose proof (Shape_bounds HS) as Hb.
  pose proof (sh_ids HS) as Hids.
  pose proof (sh_np HS) as Hnp.
  pose proof (fb_pend HF) as Hpend. clear HS HF.
  destruct s as [q1 q2 fbq dprod dproc pa fc pb np pc res].
  unfold sent_fb, consumedB, downstream, upstream in *; state_simpl.
  destruct pb; crush_step H;
    constructor; unfold sent_fb, consumedB; state_simpl;
    rewrite ?collect_cons; cbn [ev_create ev_put1 ev_drain ev_get1 ev_made
                                ev_feedback ev_put2];
    rewrite ?app_nil_r; auto.
  all: try discriminate.
  all: try (intros; right; auto; fail).
  all: try (rewrite length_app; cbn [length]; lia).
  all: try (eapply upto_snoc; eauto; cbn [id new_item]; lia).
  all: try (eapply upto_same; eauto; lia).
  - (* line 40: the item dequeued is the next one *)
    rewrite items_of_Some in Hids. apply map_id_mid in Hids.
    eapply upto_snoc; eauto; lia.
  - (* lines 50-54 *)
    apply map_id_mid in Hids.
    eapply fb_of_snoc; eauto; try lia.
    unfold make_feedback, fb_of. state_simpl.
    f_equal; lia.
  - replace (np + 1 - 1) with np by lia. exact Hfb.
  - (* line 55 *)
    destruct Hpend as [-> Hid].
    rewrite !length_app in Hnp. cbn [length] in Hnp.
    eapply fb_of_snoc; eauto; try lia.
    unfold make_feedback, fb_of. f_equal; lia.
  - exists fb. split; [now left|]. now destruct Hpend as [-> _].
  - (* line 61 *) intros _. now left.
Qed.

Lemma Tr_stepC tr s e s' :
  Tr cfg tr s -> stepC s = Some (e, s') -> Tr cfg (e :: tr) s'.
Proof.
  intros [Hcr Hp1 Hdr Hg1 Hmade Hfb Hfwd HsA HsB] H.
  destruct s as [q1 q2 fbq dprod dproc pa fc pb np pc res].
  unfold sent_fb, consumedB in *; state_simpl.
  destruct pc; crush_step H;
    constructor; unfold sent_fb, consumedB; state_simpl;
    rewrite ?collect_cons; cbn [ev_create ev_put1 ev_drain ev_get1 ev_made
                                ev_feedback ev_put2];
    rewrite ?app_nil_r; auto.
  all: try (intros; right; auto; fail).
  all: try (fwd_keep Hfwd pb; fail).
Qed.

Lemma Tr_step t tr s e s' :
  Shape cfg s -> Fb s -> Tr cfg tr s -> step cfg t s = Some (e, s') ->
  Tr cfg (e :: tr) s'.
Proof.
  destruct t; simpl; eauto using Tr_stepA, Tr_stepB, Tr_stepC.
Qed.

Lemma Reach_Tr tr s : Reach cfg tr s -> Tr cfg tr s.
Proof.
  induction 1; eauto using Tr_init, Tr_step, Reach_Shape, Reach_Fb.
Qed.

(** Every transition uses up some of the bound. *)
Lemma mu_step t s e s' :
  Shape cfg s -> step cfg t s = Some (e, s') -> mu cfg s' < mu cfg s.
Proof.
  intros HS H.
  pose proof (Shape_bounds HS) as Hb.
  pose proof (sh_A HS) as HA.
  pose proof (sh_np HS) as Hnp. clear HS.
  destruct s as [q1 q2 fbq dprod dproc pa fc pb np pc res].
  unfold mu, item_total, downstream in *; state_simpl.
  rewrite !length_app in Hnp.
  destruct t; cbn [step] in H;
    [destruct pa | destruct pb | destruct pc]; crush_step H;
    unfold mu, muA, muB, muC, item_total; state_simpl;
    rewrite ?length_app; cbn [length];
    try apply Z.ltb_ge in Heqb; try apply Z.ltb_lt in Heqb; lia.
Qed.

(** [Stage1.run] counts a record only while it builds an item, and the
    record is then that of an earlier item. *)
Lemma last_check_step t s e s' :
  Shape cfg s -> Fb s ->
  feedback_count s <= readable cfg ->
  step cfg t s = Some (e, s') ->
  feedback_count s' <= readable cfg.
Proof.
  intros HS HF Hle H.
  pose proof (Shape_bounds HS) as Hb. pose proof (sh_A HS) as HA.
  pose proof (fb_cnt HF) as Hcnt.
  assert (Hsent : sent_fb s <= processed_count s)
    by (unfold sent_fb; destruct (pcB s); lia).
  clear HS HF.
  destruct s as [q1 q2 fbq dprod dproc pa fc pb np pc res].
  unfold readable in *. state_simpl.
  destruct t; cbn [step] in H;
    [destruct pa | destruct pb | destruct pc]; crush_step H;
    state_simpl; auto.
  (* line 20 *)
  lia.
Qed.

Lemma Reach_last_check tr s :
  Reach cfg tr s -> feedback_count s <= readable cfg.
Proof.
  induction 1 as [|tr s t e s' HR IH Hstep];
    [unfold readable; simpl; lia|].
  eauto using last_check_step, Reach_Shape, Reach_Fb.
Qed.

Lemma mu_nonneg s :
  Shape cfg s -> Fb s -> feedback_count s <= readable cfg -> 0 <= mu cfg s.
Proof.
  intros HS HF Hlast.
  pose proof (Shape_bounds HS) as Hb.
  pose proof (sh_A HS) as HA.
  pose proof (sh_np HS) as Hnp.
  pose proof (fb_cnt HF) as Hcnt. clear HS HF.
  destruct s as [q1 q2 fbq dprod dproc pa fc pb np pc res].
  unfold mu, muA, muB, muC, item_total, downstream, sent_fb in *; state_simpl.
  rewrite !length_app in Hnp.
  destruct pa, pb, pc; state_simpl; lia.
Qed.

(** A run makes at most [run_bound] transitions. *)
Lemma Reach_length tr s :
  Reach cfg tr s -> Z.of_nat (length tr) + mu cfg s <= run_bound cfg.
Proof.
  induction 1 as [|tr s t e s' HR IH Hstep].
  - unfold run_bound, mu, muA, muB, muC, item_total, init. state_simpl. lia.
  - apply mu_step in Hstep; [|eauto using Reach_Shape].
    cbn [length]. lia.
Qed.

(** So no run goes on for ever. *)
Lemma Reach_bounded tr s :
  Reach cfg tr s -> Z.of_nat (length tr) <= run_bound cfg.
Proof.
  intros HR. pose proof (Reach_length HR).
  pose proof (mu_nonneg (Reach_Shape HR) (Reach_Fb HR)
                (Reach_last_check HR)).
  lia.
Qed.

Lemma mu_pos s :
  Shape cfg s -> Fb s -> feedback_count s <= readable cfg ->
  final s = false -> 0 < mu cfg s.
Proof.
  intros HS HF Hlast Hfin.
  pose proof (Shape_bounds HS) as Hb.
  pose proof (sh_A HS) as HA.
  pose proof (sh_np HS) as Hnp.
  pose proof (fb_cnt HF) as Hcnt. clear HS HF.
  destruct s as [q1 q2 fbq dprod dproc pa fc pb np pc res].
  unfold mu, muA, muB, muC, item_total, downstream, sent_fb, final in *;
    state_simpl.
  rewrite !length_app in Hnp.
  destruct pa, pb, pc; state_simpl; try discriminate; lia.
Qed.

(** ** No deadlock when the feedback queue has room *)

Lemma put_None_full {X : Type} maxsize (x : X) q :
  Queue.put maxsize x q = None ->
  0 < maxsize <= Z.of_nat (length q).
Proof.
  unfold Queue.put, Queue.full.
  destruct (0 <? maxsize) eqn:E1; simpl; [|discriminate].
  destruct (maxsize <=? Z.of_nat (length q)) eqn:E2; [|discriminate].
  intros _. apply Z.ltb_lt in E1. apply Z.leb_le in E2. lia.
Qed.

Lemma stepA_None s :
  stepA cfg s = None ->
  match pcA s with
  | A_get _ _ => feedback s = []
  | A_put _ _ | A_sentinel =>
      0 < max_12 cfg <= Z.of_nat (length (stage1_to_stage2 s))
  | A_stop => True
  | _ => False
  end.
Proof.
  destruct s as [q1 q2 fbq dprod dproc pa fc pb np pc res].
  destruct pa; simpl; auto; try discriminate.
  - destruct (i <? num_items cfg); discriminate.
  - destruct (Queue.empty fbq); discriminate.
  - destruct fbq; [reflexivity | discriminate].
  - destruct (Queue.put _ _ _) eqn:E; [discriminate|].
    intros _. now apply put_None_full in E.
  - destruct (Queue.put _ _ _) eqn:E; [discriminate|].
    intros _. now apply put_None_full in E.
Qed.

Lemma stepB_None s :
  stepB cfg s = None ->
  match pcB s with
  | B_get => stage1_to_stage2 s = []
  | B_fb _ _ => 0 < max_fb cfg <= Z.of_nat (length (feedback s))
  | B_fwd _ | B_sentinel =>
      0 < max_23 cfg <= Z.of_nat (length (stage2_to_stage3 s))
  | B_stop => True
  | _ => False
  end.
Proof.
  destruct s as [q1 q2 fbq dprod dproc pa fc pb np pc res].
  destruct pb; simpl; auto; try discriminate.
  - destruct q1 as [|[?|] ?]; [reflexivity | discriminate | discriminate].
  - destruct (Queue.put _ _ _) eqn:E; [discriminate|].
    intros _. now apply put_None_full in E.
  - destruct (Queue.put _ _ _) eqn:E; [discriminate|].
    intros _. now apply put_None_full in E.
  - destruct (Queue.put _ _ _) eqn:E; [discriminate|].
    intros _. now apply put_None_full in E.
Qed.

Lemma stepC_None s :
  stepC s = None ->
  pcC s = C_stop \/ (pcC s = C_get /\ stage2_to_stage3 s = []).
Proof.
  destruct s as [q1 q2 fbq dprod dproc pa fc pb np pc res].
  destruct pc; simpl; auto; try discriminate.
  destruct q2 as [|[?|] ?]; auto; discriminate.
Qed.

Lemma stuck_true s :
  stuck cfg s = true ->
  stepA cfg s = None /\ stepB cfg s = None /\ stepC s = None.
Proof.
  unfold stuck.
  destruct (stepA cfg s), (stepB cfg s), (stepC s); auto; discriminate.
Qed.

(** A state that is not final has a thread that can move: the consumer
    if its queue is not empty, else the transform, else the producer. *)
Lemma progress s :
  feedback_roomy cfg -> Shape cfg s -> Fb s ->
  final s = false -> stuck cfg s = false.
Proof.
  intros Hroom HS HF Hfin.
  destruct (stuck cfg s) eqn:Hst; [exfalso | reflexivity].
  apply stuck_true in Hst as (EA & EB & EC).
  apply stepA_None in EA. apply stepB_None in EB. apply stepC_None in EC.
  pose proof (Shape_bounds HS) as Hb.
  pose proof (fb_cnt HF) as Hcnt.
  pose proof (fb_get HF) as Hget.
  pose proof (sh_q12 HS) as Hq12. pose proof (sh_q23 HS) as Hq23.
  pose proof (sh_B HS) as HB. pose proof (sh_C HS) as HC.
  pose proof (sh_np HS) as Hnp.
  destruct s as [q1 q2 fbq dprod dproc pa fc pb np pc res].
  assert (Hfc : 0 <= fc)
    by (pose proof (fb_fc HF) as E; cbn [feedback_count pcA] in E;
        rewrite E; unfold adjustments_total, unappended; destruct pa; lia).
  pose proof (uncounted_bounds pa) as Hun.
  clear HS HF.
  unfold final, sent_fb, feedback_roomy, item_total, downstream in *.
  state_simpl.
  destruct EC as [-> | [-> ->]].
  - (* the consumer has returned: so have the other two *)
    destruct (HC eq_refl) as [-> _].
    destruct (HB eq_refl) as [-> _]. discriminate.
  - (* the consumer waits on an empty queue *)
    destruct pb; state_simpl; try contradiction;
      cbn [length] in *; try lia.
    + (* the transform waits on an empty queue *)
      subst q1.
      destruct pa; state_simpl; try contradiction;
        cbn [length] in *; try lia; discriminate.
    + (* the transform has returned *)
      discriminate.
Qed.

(** ** Runs under a scheduler *)

Lemma pick_Some t s e s' :
  pick cfg t s = Some (e, s') -> exists t', step cfg t' s = Some (e, s').
Proof.
  unfold pick.
  destruct (step cfg t s) eqn:E0; [intros [= ->]; eauto|].
  destruct (stepA cfg s) eqn:EA; [intros [= ->]; now exists TA|].
  destruct (stepB cfg s) eqn:EB; [intros [= ->]; now exists TB|].
  intros EC. now exists TC.
Qed.

Lemma pick_None t s : pick cfg t s = None -> stuck cfg s = true.
Proof.
  unfold pick, stuck.
  destruct (step cfg t s); [discriminate|].
  destruct (stepA cfg s); [discriminate|].
  destruct (stepB cfg s); [discriminate|].
  now intros ->.
Qed.

Lemma run_sound sched fuel : forall k tr s,
  Reach cfg tr s -> outcome_ok cfg (run cfg sched fuel k tr s).
Proof.
  induction fuel as [|fuel IH]; intros k tr s HR; simpl.
  - destruct (final s) eqn:Hfin; simpl; auto.
  - destruct (final s) eqn:Hfin; simpl; auto.
    destruct (pick cfg (sched k) s) as [[e s']|] eqn:Hp.
    + apply pick_Some in Hp as [t' Hstep].
      apply IH. econstructor; eauto.
    + apply pick_None in Hp. simpl. auto.
Qed.

(** The fuel of [enough_fuel] never runs out. *)
Lemma run_fuel sched fuel : forall k tr s,
  Reach cfg tr s -> mu cfg s <= Z.of_nat fuel ->
  forall tr' s', run cfg sched fuel k tr s <> OutOfFuel tr' s'.
Proof.
  induction fuel as [|fuel IH]; intros k tr s HR Hmu tr' s'; simpl.
  - destruct (final s) eqn:Hfin; [discriminate|].
    pose proof (mu_pos (Reach_Shape HR) (Reach_Fb HR)
                  (Reach_last_check HR) Hfin).
    lia.
  - destruct (final s) eqn:Hfin; [discriminate|].
    destruct (pick cfg (sched k) s) as [[e s1]|] eqn:Hp; [|discriminate].
    apply pick_Some in Hp as [t' Hstep].
    apply IH; [econstructor; eauto|].
    pose proof (mu_step _ (Reach_Shape HR) Hstep). lia.
Qed.

(** With room in the feedback queue no run blocks. *)
Lemma run_not_blocked sched fuel : forall k tr s,
  feedback_roomy cfg -> Reach cfg tr s ->
  forall tr' s', run cfg sched fuel k tr s <> Blocked tr' s'.
Proof.
  intros k tr s Hroom HR tr' s' E.
  pose proof (run_sound sched fuel k HR) as Hok.
  rewrite E in Hok. destruct Hok as (HR' & Hfin & Hst).
  rewrite (progress Hroom (Reach_Shape HR') (Reach_Fb HR') Hfin) in Hst.
  discriminate.
Qed.

Lemma init_mu : mu cfg init <= Z.of_nat (enough_fuel cfg).
Proof.
  unfold enough_fuel, run_bound, mu, muA, muB, muC, item_total, init.
  state_simpl. lia.
Qed.

Lemma run_returns sched :
  feedback_roomy cfg ->
  exists tr s,
    run cfg sched (enough_fuel cfg) 0 [] init = Returned tr s
    /\ Reach cfg tr s /\ final s = true.
Proof.
  intros Hroom.
  pose proof (run_sound sched (enough_fuel cfg) 0 (Reach_init cfg)) as Hok.
  destruct (run cfg sched (enough_fuel cfg) 0 [] init) as [tr s|tr s|tr s]
    eqn:E.
  - exists tr, s. simpl in Hok. tauto.
  - exfalso. eapply run_not_blocked; eauto. constructor.
  - exfalso. eapply run_fuel; eauto using init_mu. constructor.
Qed.

(** ** The state when everything has returned *)

Lemma final_pcs s :
  final s = true -> pcA s = A_stop /\ pcB s = B_stop /\ pcC s = C_stop.
Proof.
  unfold final. destruct (pcA s), (pcB s), (pcC s); auto; discriminate.
Qed.

Lemma stopped_results s :
  Shape cfg s -> pcC s = C_stop ->
  map id (results s) = upto (item_total cfg)
  /\ downstream s = results s /\ upstream s = [].
Proof.
  intros HS HpC.
  destruct (sh_C HS HpC) as [HpB Hq2].
  assert (Hr : runningB (pcB s) = false) by now rewrite HpB.
  destruct (sh_B HS Hr) as [HpA Hq1].
  pose proof (sh_ids HS) as Hids.
  unfold downstream, upstream in *.
  rewrite HpA, HpB, HpC, Hq1, Hq2 in *. simpl in Hids.
  rewrite !app_nil_r in Hids. simpl. rewrite !app_nil_r. auto.
Qed.

(** A trace that goes on from [pre] went through a state that [pre]
    leads to. *)
Lemma Reach_split post e pre : forall s,
  Reach cfg (post ++ e :: pre) s ->
  exists t s0 s1, Reach cfg pre s0 /\ step cfg t s0 = Some (e, s1).
Proof.
  induction post as [|x post IH]; intros s HR; simpl in HR.
  - inversion HR; subst. eauto.
  - inversion HR; subst. eauto.
Qed.

Lemma stopped_B_count s :
  Shape cfg s -> pcB s = B_stop -> processed_count s = item_total cfg.
Proof.
  intros HS HpB.
  assert (Hr : runningB (pcB s) = false) by now rewrite HpB.
  destruct (sh_B HS Hr) as [HpA Hq1].
  pose proof (sh_ids HS) as Hids. pose proof (sh_np HS) as Hnp.
  unfold upstream in Hids. rewrite HpA, HpB, Hq1 in Hids.
  simpl in Hids. rewrite app_nil_r in Hids.
  apply (f_equal (@length Z)) in Hids. rewrite length_map in Hids.
  rewrite Hnp, Hids. apply upto_nonneg. unfold item_total. lia.
Qed.

End Invariants.

(** * A run that blocks *)

Section Blocking.

Variable cfg : Config.

Lemma put_Some_room {X : Type} maxsize (x : X) q q' :
  Queue.put maxsize x q = Some q' ->
  0 < maxsize -> Z.of_nat (length q') <= maxsize.
Proof.
  unfold Queue.put, Queue.full. intros H Hm.
  destruct (0 <? maxsize) eqn:E1; [|apply Z.ltb_ge in E1; lia].
  destruct (maxsize <=? Z.of_nat (length q)) eqn:E2; [discriminate|].
  injection H as <-. apply Z.leb_gt in E2.
  rewrite length_app. simpl. lia.
Qed.

(** The feedback queue never holds more than its capacity. *)
Lemma feedback_bound tr s :
  Reach cfg tr s -> 0 < max_fb cfg ->
  Z.of_nat (length (feedback s)) <= max_fb cfg.
Proof.
  intros HR Hm. induction HR as [|tr s t e s' HR IH Hstep]; [simpl; lia|].
  destruct s as [q1 q2 fbq dprod dproc pa fc pb np pc res].
  simpl in IH.
  destruct t; cbn [step] in Hstep.
  - destruct pa; crush_step Hstep; simpl in *; lia.
  - destruct pb; simpl in Hstep;
      try (crush_step Hstep; simpl in *; lia).
    destruct (Queue.put (max_fb cfg) fb fbq) as [fbq'|] eqn:E;
      [|discriminate].
    injection Hstep as <- <-. simpl.
    now apply put_Some_room in E.
  - destruct pc; crush_step Hstep; simpl in *; lia.
Qed.

Lemma pick_TA s e s' :
  pick cfg TA s = Some (e, s') ->
  stepA cfg s = Some (e, s')
  \/ (stepA cfg s = None
      /\ (stepB cfg s = Some (e, s')
          \/ (stepB cfg s = None /\ stepC s = Some (e, s')))).
Proof.
  unfold pick. cbn [step].
  destruct (stepA cfg s); [auto|].
  destruct (stepB cfg s); auto.
Qed.

Lemma ahead_init : ahead cfg init.
Proof. unfold ahead. simpl. lia. Qed.

Lemma ahead_stepA s e s' :
  ahead cfg s -> stepA cfg s = Some (e, s') -> ahead cfg s'.
Proof.
  intros Ha H.
  destruct s as [q1 q2 fbq dprod dproc pa fc pb np pc res].
  unfold ahead in *. state_simpl.
  destruct pa; crush_step H; state_simpl; auto;
    rewrite ?length_app; cbn [length]; unfold Msg in *; lia.
Qed.

(** The transform takes an item only when the producer waits on a full
    queue. *)
Lemma ahead_stepB s e s' :
  Fb s -> ahead cfg s ->
  stepA cfg s = None -> stepB cfg s = Some (e, s') -> ahead cfg s'.
Proof.
  intros HF Ha HA H.
  apply stepA_None in HA. pose proof (fb_get HF) as Hget.
  destruct s as [q1 q2 fbq dprod dproc pa fc pb np pc res].
  unfold ahead in *. state_simpl.
  destruct pa; try contradiction; auto;
    destruct pb; crush_step H; state_simpl; cbn [length] in *;
    auto; unfold Msg in *; lia.
Qed.

Lemma ahead_stepC s e s' :
  ahead cfg s -> stepC s = Some (e, s') -> ahead cfg s'.
Proof.
  intros Ha H.
  destruct s as [q1 q2 fbq dprod dproc pa fc pb np pc res].
  unfold ahead in *. state_simpl.
  destruct pc; crush_step H; state_simpl; auto.
Qed.

Lemma ahead_pick s e s' :
  Fb s -> ahead cfg s -> pick cfg TA s = Some (e, s') -> ahead cfg s'.
Proof.
  intros HF Ha H.
  apply pick_TA in H as [H | (HA & [H | (HB & H)])];
    eauto using ahead_stepA, ahead_stepB, ahead_stepC.
Qed.

(** While the producer runs, the items it has enqueued are those the
    transform has taken and those still in the first queue. *)
Lemma Shape_q12_len s :
  Shape cfg s -> stoppedA (pcA s) = false ->
  processed_count s + Z.of_nat (length (stage1_to_stage2 s))
  <= sentA cfg (pcA s).
Proof.
  intros HS Hrun.
  pose proof (Shape_bounds HS) as [[Hnp0 Hle] _].
  pose proof (sh_ids HS) as Hids. pose proof (sh_np HS) as Hnp.
  pose proof (sh_q12 HS) as Hq. rewrite Hrun in Hq.
  simpl in Hq. rewrite app_nil_r in Hq.
  apply (f_equal (@length Msg)) in Hq. rewrite length_map in Hq.
  apply (f_equal (@length Z)) in Hids.
  unfold upstream in Hids.
  rewrite length_map, !length_app in Hids.
  assert (H0 : 0 <= sentA cfg (pcA s)) by lia.
  pose proof (upto_nonneg H0). lia.
Qed.

Lemma few_init : few_drained cfg init.
Proof. unfold few_drained. simpl. lia. Qed.

Lemma few_stepA s e s' :
  Shape cfg s -> Fb s -> ahead cfg s -> few_drained cfg s ->
  stepA cfg s = Some (e, s') -> few_drained cfg s'.
Proof.
  intros HS HF Ha Hfew H.
  pose proof (sh_A HS) as HA. pose proof (fb_cnt HF) as Hcnt.
  assert (Hsent : sent_fb s <= processed_count s)
    by (unfold sent_fb; destruct (pcB s); lia).
  assert (Hlen : stoppedA (pcA s) = false ->
                 processed_count s + Z.of_nat (length (stage1_to_stage2 s))
                 <= sentA cfg (pcA s))
    by (apply Shape_q12_len; exact HS).
  clear HS HF.
  destruct s as [q1 q2 fbq dprod dproc pa fc pb np pc res].
  unfold few_drained, ahead in *. state_simpl.
  destruct pa; crush_step H; state_simpl; auto.
  (* line 20 *)
  specialize (Hlen eq_refl). cbn [length] in Hcnt. unfold Msg in *. lia.
Qed.

Lemma few_pick s e s' :
  Shape cfg s -> Fb s -> ahead cfg s -> few_drained cfg s ->
  pick cfg TA s = Some (e, s') -> few_drained cfg s'.
Proof.
  intros HS HF Ha Hfew H.
  apply pick_TA in H as [H | (HA & [H | (HB & H)])].
  - eauto using few_stepA.
  - destruct s as [q1 q2 fbq dprod dproc pa fc pb np pc res].
    unfold few_drained in *.
    destruct pb; crush_step H; exact Hfew.
  - destruct s as [q1 q2 fbq dprod dproc pa fc pb np pc res].
    unfold few_drained in *.
    destruct pc; crush_step H; exact Hfew.
Qed.

Lemma run_few fuel : forall k tr s,
  Reach cfg tr s -> ahead cfg s -> few_drained cfg s ->
  forall tr' s',
    run cfg producer_first fuel k tr s = Returned tr' s' ->
    few_drained cfg s'.
Proof.
  induction fuel as [|fuel IH]; intros k tr s HR Ha Hfew tr' s'; simpl.
  - destruct (final s); [|discriminate]. now intros [= _ <-].
  - destruct (final s); [now intros [= _ <-]|].
    unfold producer_first at 1.
    destruct (pick cfg TA s) as [[e s1]|] eqn:Hp; [|discriminate].
    pose proof (Reach_Shape HR) as HS. pose proof (Reach_Fb HR) as HF.
    apply IH.
    + apply pick_Some in Hp as [t Hstep]. econstructor; eauto.
    + eauto using ahead_pick.
    + eauto using few_pick.
Qed.

(** With a feedback queue no larger than the first queue and more items
    than it holds, the run in which the producer goes first blocks. *)
Lemma producer_first_blocks :
  0 < max_fb cfg <= max_12 cfg -> max_fb cfg < num_items cfg ->
  exists tr s,
    run cfg producer_first (enough_fuel cfg) 0 [] init = Blocked tr s.
Proof.
  intros Hcap Hn.
  pose proof (run_sound producer_first (enough_fuel cfg) 0 (Reach_init cfg))
    as Hok.
  destruct (run cfg producer_first (enough_fuel cfg) 0 [] init)
    as [tr s|tr s|tr s] eqn:E.
  - exfalso. destruct Hok as [HR Hf].
    pose proof (run_few _ 0 (Reach_init cfg) ahead_init few_init E) as Hfew.
    apply final_pcs in Hf as (HpA & HpB & _).
    pose proof (stopped_B_count (Reach_Shape HR) HpB) as Hnp.
    pose proof (fb_cnt (Reach_Fb HR)) as Hcnt.
    pose proof (feedback_bound HR (proj1 Hcap)) as Hb.
    unfold sent_fb in Hcnt. rewrite HpA, HpB in Hcnt. cbn [uncounted] in Hcnt.
    unfold few_drained, item_total in *. lia.
  - eauto.
  - exfalso. eapply run_fuel; eauto using init_mu. constructor.
Qed.

End Blocking.

(** * The pipeline as a whole *)

Lemma roomy_pipeline count cap :
  0 <= count <= cap -> feedback_roomy (pipeline_config count cap).
Proof. intros H. right. unfold item_total, pipeline_config. simpl. lia. Qed.

Lemma run_pipeline_Result count cap sched res :
  run_pipeline count cap sched = Result res ->
  exists tr s,
    Reach (pipeline_config count cap) tr s /\ final s = true
    /\ results s = res.
Proof.
  unfold run_pipeline. destruct (cap <=? 0); [discriminate|].
  pose proof (run_sound sched (enough_fuel (pipeline_config count cap)) 0
                (Reach_init (pipeline_config count cap))) as Hok.
  destruct (run _ _ _ _ _ _) as [tr s|tr s|tr s]; try discriminate.
  intros [= <-]. exists tr, s. simpl in Hok. tauto.
Qed.

Lemma run_pipeline_returns count cap sched :
  0 < cap -> 0 <= count <= cap ->
  exists tr s,
    run_pipeline count cap sched = Result (results s)
    /\ Reach (pipeline_config count cap) tr s /\ final s = true.
Proof.
  intros Hcap Hcount.
  destruct (run_returns sched (roomy_pipeline Hcount))
    as (tr & s & E & HR & Hf).
  exists tr, s. unfold run_pipeline.
  destruct (cap <=? 0) eqn:Ec; [apply Z.leb_le in Ec; lia|].
  cbv zeta. now rewrite E.
Qed.

Lemma final_ids cfg tr s :
  Reach cfg tr s -> final s = true ->
  map id (results s) = upto (item_total cfg).
Proof.
  intros HR Hf. apply final_pcs in Hf as (_ & _ & HC).
  now apply (stopped_results (Reach_Shape HR)) in HC.
Qed.

(** C1 fails on the code: with two items and capacity one there is an
    interleaving in which [Stage2] waits for ever at line 55, on a feedback
    queue that [Stage1], which has returned, will not empty.  The sentinel
    that line 28 sends "to signal Stage 2 to stop" (line 27) is never
    dequeued, [Stage3] waits for the second item, and [run_pipeline] does
    not return. *)
Lemma C1_counterexample :
  run_pipeline 2 1 (schedule deadlock_schedule) = Hang
  /\ exists tr s,
       run (pipeline_config 2 1) (schedule deadlock_schedule)
           (enough_fuel (pipeline_config 2 1)) 0 [] init = Blocked tr s
       /\ pcA s = A_stop
       /\ pcB s = B_fb (mkItem 1 21 [] (Some true))
                       (mkFeedback 1 "increase_rate" 2)
       /\ feedback s = [mkFeedback 0 "increase_rate" 1]
       /\ pcC s = C_get
       /\ map id (results s) = [0].
Proof.
  split; [vm_compute; reflexivity|].
  eexists. eexists. split; [vm_compute; reflexivity|].
  repeat split.
Qed.

(** With more items than the capacity, the run in which the producer goes
    first does not return. *)
Lemma run_pipeline_blocks count cap :
  0 < cap < count -> run_pipeline count cap producer_first = Hang.
Proof.
  intros H. unfold run_pipeline.
  destruct (cap <=? 0) eqn:Ec; [apply Z.leb_le in Ec; lia|].
  cbv zeta.
  destruct (@producer_first_blocks (pipeline_config count cap))
    as (tr & s & E); [simpl; lia | simpl; lia |].
  now rewrite E.
Qed.

(** For [count >= 0] and a positive capacity, whenever [run_pipeline]
    returns it returns exactly [count] items whose ids are
    [0 .. count-1], each once and in increasing order; and when
    [count <= cap] it returns under every scheduler: no run has more than
    [14 * count + 9] transitions, and a state that is not final is not
    stuck. *)
Lemma run_pipeline_ids count cap sched :
  0 <= count -> 0 < cap ->
  (forall res, run_pipeline count cap sched = Result res ->
     map id res = upto count /\ Z.of_nat (length res) = count)
  /\ (count <= cap ->
      (exists res, run_pipeline count cap sched = Result res)
      /\ forall tr s,
           Reach (pipeline_config count cap) tr s ->
           Z.of_nat (length tr) <= 14 * count + 9
           /\ (final s = false -> stuck (pipeline_config count cap) s = false)).
Proof.
  intros Hcount Hcap. split.
  - intros res E.
    apply run_pipeline_Result in E as (tr & s & HR & Hf & <-).
    pose proof (final_ids HR Hf) as Hids.
    unfold item_total, pipeline_config in Hids. simpl in Hids.
    rewrite Z.max_r in Hids by lia. split; [exact Hids|].
    apply (f_equal (@length Z)) in Hids.
    rewrite length_map in Hids. rewrite Hids. now apply upto_nonneg.
  - intros Hle. split.
    + destruct (@run_pipeline_returns count cap sched Hcap
                  (conj Hcount Hle)) as (tr & s & E & _).
      eauto.
    + intros tr s HR. split.
      * pose proof (Reach_bounded HR) as H.
        unfold run_bound, readable, item_total, pipeline_config in H.
        cbn [num_items] in H. lia.
      * apply progress; eauto using Reach_Shape, Reach_Fb.
        apply roomy_pipeline. lia.
Qed.

Lemma run_pipeline_ids_example :
  exists res,
    run_pipeline 3 3 (schedule [TB; TA; TC]) = Result res
    /\ map id res = [0; 1; 2].
Proof.
  destruct (@run_pipeline_ids 3 3 (schedule [TB; TA; TC]))
    as (H1 & H2); [lia | lia |].
  destruct H2 as [[res E] _]; [lia|].
  exists res. split; [exact E|]. now destruct (H1 res E).
Defined.

(** * Properties of the reachable states *)

Lemma In_items_of it q : In (Some it) q <-> In it (items_of q).
Proof.
  unfold items_of. rewrite in_flat_map. split.
  - intros H. exists (Some it). split; [exact H | now left].
  - intros ([x|] & Hin & Hx); simpl in Hx; [|contradiction].
    destruct Hx as [->|[]]. exact Hin.
Qed.

(** Only line 58 puts an item on the second queue. *)
Lemma step_EvPut2 cfg t s it s' :
  step cfg t s = Some (EvPut2 (Some it), s') -> pcB s = B_fwd it.
Proof.
  intros H.
  destruct s as [q1 q2 fbq dprod dproc pa fc pb np pc res].
  destruct t; cbn [step] in H;
    [destruct pa | destruct pb | destruct pc]; invert_step H.
  reflexivity.
Qed.

(** C2: every item that enters channel 2, and so every item in the
    result, has [processed == True] and [value == 2 * (id * 10) + 1]. *)
Theorem C2_transformed_items cfg tr s it :
  Reach cfg tr s ->
  In (EvPut2 (Some it)) tr \/ In (Some it) (stage2_to_stage3 s)
  \/ In it (results s) ->
  processed it = Some true /\ value it = 2 * (id it * 10) + 1.
Proof.
  intros HR Hin.
  assert (Hpost : post_ok it); [|unfold post_ok in Hpost; tauto].
  destruct Hin as [Hin | [Hin | Hin]].
  - apply in_split in Hin as (post & pre & ->).
    apply Reach_split in HR as (t & s0 & s1 & HR0 & Hstep).
    apply step_EvPut2 in Hstep.
    pose proof (sh_post (Reach_Shape HR0)) as HF.
    unfold downstream in HF. rewrite Hstep in HF. simpl in HF.
    rewrite !Forall_app in HF. destruct HF as (_ & _ & _ & HF).
    now inversion HF.
  - pose proof (sh_post (Reach_Shape HR)) as HF.
    rewrite Forall_forall in HF. apply HF.
    unfold downstream. rewrite !in_app_iff. right; right; left.
    now apply In_items_of.
  - pose proof (sh_post (Reach_Shape HR)) as HF.
    rewrite Forall_forall in HF. apply HF.
    unfold downstream. rewrite !in_app_iff. now left.
Qed.

Lemma exec_Reach cfg sched : forall tr s,
  Reach cfg tr s ->
  Reach cfg (fst (exec cfg sched tr s)) (snd (exec cfg sched tr s)).
Proof.
  induction sched as [|t sched IH]; intros tr s HR; simpl; [exact HR|].
  destruct (step cfg t s) as [[e s']|] eqn:E; [|now apply IH].
  apply IH. econstructor; eauto.
Qed.

Lemma demo_Reach : Reach demo_config (fst demo_run) (snd demo_run).
Proof. exact (exec_Reach (rounds 14) (Reach_init demo_config)). Qed.

Lemma demo_end_Reach : Reach demo_config (fst demo_end) (snd demo_end).
Proof. exact (exec_Reach (rounds 24) (Reach_init demo_config)). Qed.

Lemma demo_drain_Reach :
  Reach demo_config (fst demo_drain) (snd demo_drain).
Proof.
  exact (exec_Reach [TA; TA; TA; TB; TB; TB; TA; TA]
           (Reach_init demo_config)).
Qed.

Lemma C2_witness :
  processed (mkItem 1 21 [] (Some true)) = Some true
  /\ value (mkItem 1 21 [] (Some true))
     = 2 * (id (mkItem 1 21 [] (Some true)) * 10) + 1.
Proof.
  apply (@C2_transformed_items demo_config (fst demo_run) (snd demo_run)).
  - exact demo_Reach.
  - right; right. simpl. auto.
Defined.

Lemma nth_error_fb_of k n :
  (n < Z.to_nat k)%nat ->
  nth_error (map fb_of (upto k)) n = Some (fb_of (Z.of_nat n)).
Proof.
  intros H. unfold upto.
  rewrite !nth_error_map, nth_error_seq.
  apply Nat.ltb_lt in H. now rewrite H.
Qed.

(** C3 fails on the code, on the total: with three items and capacity
    one there is an interleaving in which [Stage2] builds its second record
    and then waits for ever at line 55, on a feedback queue that holds the
    first record; [Stage1] waits at line 28 and [Stage3] at line 73.  No
    third record is ever built: the same wait at line 55 that stops the
    pipeline with two items. *)
Lemma C3_counterexample :
  exists tr s,
    run (pipeline_config 3 1) (schedule starved_schedule)
        (enough_fuel (pipeline_config 3 1)) 0 [] init = Blocked tr s
    /\ pcA s = A_sentinel
    /\ stage1_to_stage2 s = [Some (mkItem 2 20 [] None)]
    /\ pcB s = B_fb (mkItem 1 21 [] (Some true))
                    (mkFeedback 1 "increase_rate" 2)
    /\ feedback s = [mkFeedback 0 "increase_rate" 1]
    /\ pcC s = C_get
    /\ stage2_to_stage3 s = []
    /\ collect ev_made tr = [mkFeedback 0 "increase_rate" 1;
                             mkFeedback 1 "increase_rate" 2]
    /\ Z.of_nat (length (collect ev_made tr)) <> 3.
Proof.
  eexists. eexists. split; [vm_compute; reflexivity|].
  repeat (split; [reflexivity|]). vm_compute. discriminate.
Qed.

(** [Stage2] builds one record per item it dequeues, so as many records
    as it has dequeued items, which is [count] once it has returned, and
    then all are enqueued; the record for the [k]-th item (from zero here)
    carries the id of that item, the tag ["increase_rate"], and [k + 1],
    the counter after its increment. *)
Lemma one_feedback_per_item cfg tr s :
  Reach cfg tr s -> 0 <= num_items cfg ->
  (length (collect ev_made tr) <= length (collect ev_get1 tr)
   <= S (length (collect ev_made tr)))%nat
  /\ (forall k it,
        nth_error (collect ev_get1 tr) k = Some it ->
        (k < length (collect ev_made tr))%nat ->
        nth_error (collect ev_made tr) k
        = Some (mkFeedback (id it) "increase_rate" (Z.of_nat k + 1)))
  /\ (pcB s = B_stop ->
        Z.of_nat (length (collect ev_made tr)) = num_items cfg
        /\ collect ev_feedback tr = collect ev_made tr).
Proof.
  intros HR Hn.
  pose proof (Reach_Tr HR) as HT. pose proof (Reach_Shape HR) as HS.
  pose proof (Shape_bounds HS) as [Hnp _].
  pose proof (tr_get1 HT) as Hg. pose proof (tr_made HT) as Hm.
  assert (Lm : length (collect ev_made tr) = Z.to_nat (processed_count s)).
  { rewrite Hm. unfold upto. now rewrite !length_map, length_seq. }
  assert (Lg : length (collect ev_get1 tr) = Z.to_nat (consumedB s)).
  { apply (f_equal (@length Z)) in Hg. rewrite length_map in Hg.
    rewrite Hg. unfold upto. now rewrite length_map, length_seq. }
  repeat split.
  - rewrite Lm, Lg. unfold consumedB. destruct (pcB s); lia.
  - rewrite Lm, Lg. unfold consumedB. destruct (pcB s); lia.
  - intros k it Hk Hlt.
    assert (Hid : id it = Z.of_nat k).
    { apply (map_nth_error id) in Hk. rewrite Hg in Hk.
      now apply upto_nth in Hk. }
    rewrite Hm, nth_error_fb_of by lia.
    unfold fb_of. now rewrite Hid.
  - rewrite Lm, (stopped_B_count HS H). unfold item_total. lia.
  - rewrite (tr_feedback HT), Hm. unfold sent_fb. now rewrite H.
Qed.

Lemma one_feedback_per_item_example :
  nth_error (collect ev_made (fst demo_end)) 2
  = Some (mkFeedback 2 "increase_rate" 3)
  /\ Z.of_nat (length (collect ev_made (fst demo_end))) = 3.
Proof.
  destruct (@one_feedback_per_item demo_config (fst demo_end)
              (snd demo_end) demo_end_Reach) as (_ & Hk & Hstop).
  - simpl. lia.
  - split.
    + apply (Hk 2%nat (mkItem 2 20 [mkFeedback 0 "increase_rate" 1;
                                     mkFeedback 1 "increase_rate" 2] None)).
      * reflexivity.
      * vm_compute. lia.
    + apply Hstop. reflexivity.
Defined.

(** C4: the check of line 18 never blocks, and when it finds no feedback
    [Stage1] goes on to line 24 with the item as it is; the [get] of line
    19 is only reached with a feedback queue that is not empty, so it does
    not block either. *)
Theorem C4_drain_never_blocks cfg tr s i item :
  Reach cfg tr s ->
  (pcA s = A_check i item ->
     exists e s', stepA cfg s = Some (e, s')
       /\ (feedback s = [] ->
             e = EvEmpty true /\ pcA s' = A_put i item
             /\ feedback_count s' = feedback_count s))
  /\ (pcA s = A_get i item ->
        feedback s <> []
        /\ exists fb s', stepA cfg s = Some (EvDrain fb, s')).
Proof.
  intros HR. pose proof (fb_get (Reach_Fb HR)) as Hget.
  destruct s as [q1 q2 fbq dprod dproc pa fc pb np pc res].
  simpl in *. split; intros ->.
  - destruct fbq as [|fb fbq]; simpl.
    + eexists. eexists. split; [reflexivity|]. intros _. auto.
    + eexists. eexists. split; [reflexivity|]. discriminate.
  - split; [exact Hget|].
    destruct fbq as [|fb fbq]; [contradiction|].
    simpl. eauto.
Qed.

Lemma C4_witness :
  feedback (snd demo_drain) <> []
  /\ exists fb s', stepA demo_config (snd demo_drain) = Some (EvDrain fb, s').
Proof.
  apply (@C4_drain_never_blocks demo_config (fst demo_drain)
           (snd demo_drain) 1 (mkItem 1 10 [] None) demo_drain_Reach).
  reflexivity.
Defined.

Lemma map_id_nil (l : list Item) : map id l = [] -> l = [].
Proof. destruct l; [reflexivity | discriminate]. Qed.

(** C5: with no items the pipeline returns the empty sequence under every
    scheduler; [Stage1] creates and enqueues no item and puts the sentinel
    on the first queue; and in any run, whatever the number of items,
    [Stage2] has put the sentinel on the second queue when it returns. *)
Theorem C5_zero_items cap sched :
  0 < cap ->
  (exists tr s,
     run (pipeline_config 0 cap) sched
         (enough_fuel (pipeline_config 0 cap)) 0 [] init = Returned tr s
     /\ run_pipeline 0 cap sched = Result []
     /\ collect ev_create tr = [] /\ collect ev_put1 tr = []
     /\ In (EvPut1 None) tr /\ In (EvPut2 None) tr)
  /\ (forall cfg tr s,
        Reach cfg tr s -> pcB s = B_stop -> In (EvPut2 None) tr).
Proof.
  intros Hcap. split.
  - assert (Hroom : feedback_roomy (pipeline_config 0 cap))
      by (apply roomy_pipeline; lia).
    destruct (run_returns sched Hroom) as (tr & s & E & HR & Hf).
    exists tr, s.
    pose proof (final_ids HR Hf) as Hids.
    apply final_pcs in Hf as (HpA & HpB & HpC).
    pose proof (Reach_Tr HR) as HT.
    pose proof (tr_create HT) as Hcr. pose proof (tr_put1 HT) as Hp1.
    rewrite HpA in Hcr, Hp1. simpl in Hcr, Hp1.
    repeat split.
    + exact E.
    + unfold run_pipeline.
      destruct (cap <=? 0) eqn:Ec; [apply Z.leb_le in Ec; lia|].
      cbv zeta. rewrite E. f_equal. now apply map_id_nil.
    + now apply map_id_nil.
    + now apply map_id_nil.
    + now apply (tr_stopA HT).
    + now apply (tr_stopB HT).
  - intros cfg tr s HR. apply (tr_stopB (Reach_Tr HR)).
Qed.

Lemma C5_witness :
  run_pipeline 0 1 (schedule [TC; TB; TA]) = Result [].
Proof.
  destruct (@C5_zero_items 1 (schedule [TC; TB; TA])) as [H _]; [lia|].
  destruct H as (tr & s & _ & E & _). exact E.
Defined.

(** C6: a record in the [adjustments] of an item was made from an item
    with a smaller id. *)
Theorem C6_feedback_from_earlier cfg tr s it fb :
  Reach cfg tr s -> In it (all_items s) -> In fb (adjustments it) ->
  0 <= from_item fb < id it.
Proof.
  intros HR Hit Hfb.
  pose proof (fb_adj (Reach_Fb HR)) as HF.
  rewrite Forall_forall in HF. specialize (HF it Hit).
  unfold adj_ok in HF. rewrite Forall_forall in HF. now apply HF.
Qed.

Lemma C6_witness :
  0 <= from_item (mkFeedback 1 "increase_rate" 2)
  < id (mkItem 2 41 [mkFeedback 0 "increase_rate" 1;
                     mkFeedback 1 "increase_rate" 2] (Some true)).
Proof.
  apply (@C6_feedback_from_earlier demo_config (fst demo_end) (snd demo_end)).
  - exact demo_end_Reach.
  - simpl. auto.
  - simpl. auto.
Defined.




Lemma item_eq (it : Item) i v a p :
  id it = i -> value it = v -> adjustments it = a -> processed it = p ->
  it = mkItem i v a p.
Proof. destruct it; simpl; congruence. Qed.

Lemma single_result cfg tr s :
  num_items cfg = 1 -> Reach cfg tr s -> final s = true ->
  results s = [mkItem 0 1 [] (Some true)].
Proof.
  intros Hn HR Hf.
  pose proof (final_ids HR Hf) as Hids.
  unfold item_total in Hids. rewrite Hn in Hids.
  apply final_pcs in Hf as (_ & _ & HpC).
  destruct (stopped_results (Reach_Shape HR) HpC) as (_ & Hd & Hu).
  pose proof (sh_post (Reach_Shape HR)) as Hpost.
  pose proof (fb_adj (Reach_Fb HR)) as Hadj.
  unfold all_items in Hadj. rewrite Hd in Hpost, Hadj.
  destruct (results s) as [|it [|it' l]]; try discriminate.
  injection Hids as Hid.
  inversion Hpost as [|? ? [Hv Hp] _]; subst.
  apply Forall_app in Hadj as [Hadj _].
  inversion Hadj as [|? ? Ha _]; subst.
  f_equal. apply item_eq; auto.
  - rewrite Hv, Hid. reflexivity.
  - unfold adj_ok in Ha. destruct (adjustments it) as [|fb a]; auto.
    inversion Ha; subst. lia.
Qed.

(** C9: one item, capacity one: under every scheduler the pipeline
    returns the single item with id 0, value 1, [processed] set and no
    adjustments.  In terms of the transition system: a run has at most 20
    transitions, a state that is not final is not stuck, and a final
    state has this result. *)
Theorem C9_single_item sched :
  run_pipeline 1 1 sched = Result [mkItem 0 1 [] (Some true)]
  /\ (forall tr s,
        Reach (pipeline_config 1 1) tr s ->
        (length tr <= 20)%nat
        /\ (final s = false -> stuck (pipeline_config 1 1) s = false)
        /\ (final s = true -> results s = [mkItem 0 1 [] (Some true)])).
Proof.
  split.
  - destruct (@run_pipeline_returns 1 1 sched) as (tr & s & E & HR & Hf);
      [lia | lia |].
    rewrite E. f_equal.
    now apply (single_result (cfg := pipeline_config 1 1)) with tr.
  - intros tr s HR. split; [|split].
    + pose proof (Reach_bounded HR) as H.
      unfold run_bound, readable, item_total, pipeline_config in H.
      simpl in H. lia.
    + apply progress; eauto using Reach_Shape, Reach_Fb.
      apply roomy_pipeline. lia.
    + now apply (single_result (cfg := pipeline_config 1 1)) with tr.
Qed.

Lemma demo_dequeued_Reach :
  Reach demo_config (fst demo_dequeued) (snd demo_dequeued).
Proof.
  exact (exec_Reach [TA; TA; TA; TB; TB; TB; TA; TA; TA]
           (Reach_init demo_config)).
Qed.

(** C10, as stated, fails: [Stage1.run] dequeues a record at line 19,
    counts it at line 20 and appends it at line 22.  Between lines 19 and
    20 one record is drained and [feedback_count] is still 0; between lines
    20 and 22 [feedback_count] is 2 and the [adjustments] hold one
    record. *)
Lemma C10_counterexample :
  (Reach demo_config (fst demo_dequeued) (snd demo_dequeued)
   /\ feedback_count (snd demo_dequeued) = 0
   /\ Z.of_nat (length (collect ev_drain (fst demo_dequeued))) = 1)
  /\ (Reach demo_config (fst demo_run) (snd demo_run)
      /\ feedback_count (snd demo_run) = 2
      /\ adjustments_total (all_items (snd demo_run)) = 1)
  /\ ~ (forall tr s,
          Reach demo_config tr s ->
          feedback_count s = Z.of_nat (length (collect ev_drain tr))
          /\ feedback_count s = adjustments_total (all_items s)).
Proof.
  split; [|split].
  - split; [exact demo_dequeued_Reach|]. split; reflexivity.
  - split; [exact demo_Reach|]. split; reflexivity.
  - intros H. destruct (H _ _ demo_dequeued_Reach) as [E _].
    vm_compute in E. discriminate.
Qed.

(** C10, amended: [Stage1.feedback_count] is the number of records drained
    so far, less one between the [get] of line 19 and the increment of
    line 20; and it is the total length of the [adjustments] of the items
    made so far, plus one between the increment of line 20 and the
    [append] of line 22.  So the three numbers agree whenever [Stage1] is
    not between lines 19 and 22, and a step of [Stage1] keeps it so. *)
Theorem C10_feedback_count cfg tr s :
  Reach cfg tr s ->
  Z.of_nat (length (collect ev_drain tr))
  = feedback_count s + uncounted (pcA s)
  /\ feedback_count s = adjustments_total (all_items s) + unappended (pcA s)
  /\ (heldfb (pcA s) = [] ->
      feedback_count s = Z.of_nat (length (collect ev_drain tr))
      /\ feedback_count s = adjustments_total (all_items s))
  /\ (forall e s', stepA cfg s = Some (e, s') ->
        Z.of_nat (length (collect ev_drain (e :: tr)))
        = feedback_count s' + uncounted (pcA s')
        /\ feedback_count s'
           = adjustments_total (all_items s') + unappended (pcA s')).
Proof.
  intros HR.
  pose proof (tr_drain (Reach_Tr HR)) as H1.
  pose proof (fb_fc (Reach_Fb HR)) as H2.
  split; [exact H1|]. split; [exact H2|]. split.
  - intros Hh. destruct (pcA s); try discriminate; simpl in *; lia.
  - intros e s' H. split.
    + apply (tr_drain (Reach_Tr (Reach_step TA HR H))).
    + apply (fb_fc (Reach_Fb (Reach_step TA HR H))).
Qed.

Lemma C10_witness :
  feedback_count (snd demo_end) = 2
  /\ adjustments_total (all_items (snd demo_end)) = 2.
Proof.
  destruct (@C10_feedback_count demo_config (fst demo_end) (snd demo_end)
              demo_end_Reach) as (_ & _ & H & _).
  destruct (H eq_refl) as [_ H2].
  split; [reflexivity|]. rewrite <- H2. reflexivity.
Defined.

(** ** What each stage does to an item *)













(** * More about the pipeline *)

(** ** No feedback record is lost, repeated or reordered *)

Lemma drained_app (l1 l2 : list Item) :
  flat_map adjustments (l1 ++ l2)
  = flat_map adjustments l1 ++ flat_map adjustments l2.
Proof. apply flat_map_app. Qed.

Ltac ledger_norm :=
  unfold ledger, drained, all_items, downstream, upstream, sent_fb in *;
  state_simpl;
  repeat (progress
    (repeat rewrite ?items_of_app, ?items_of_Some, ?items_of_None,
       ?drained_app in *;
     state_simpl; cbn [flat_map] in *;
     repeat rewrite <- ?app_assoc, ?app_nil_r in *)).

Lemma ledger_init : ledger init = map fb_of (upto (sent_fb init)).
Proof. reflexivity. Qed.

Lemma ledger_step cfg t s e s' :
  Shape cfg s -> Fb s ->
  ledger s = map fb_of (upto (sent_fb s)) ->
  step cfg t s = Some (e, s') ->
  ledger s' = map fb_of (upto (sent_fb s')).
Proof.
  intros HS HF HL H.
  pose proof (fb_pend HF) as Hpend.
  pose proof (sh_np HS) as Hnp. clear HS HF.
  destruct s as [q1 q2 fbq dprod dproc pa fc pb np pc res].
  destruct t; cbn [step] in H;
    [destruct pa | destruct pb | destruct pc]; crush_step H;
    ledger_norm; try exact HL.
  - (* lines 45-54: a record is built, none is enqueued *)
    replace (np + 1 - 1) with np by lia. exact HL.
  - (* line 55 *)
    destruct Hpend as [-> Hid].
    rewrite !length_app in Hnp. cbn [length] in Hnp.
    rewrite !app_assoc in *. rewrite HL.
    eapply fb_of_snoc; eauto; try lia.
    unfold make_feedback, fb_of. f_equal; lia.
Qed.

Lemma Reach_ledger cfg tr s :
  Reach cfg tr s -> ledger s = map fb_of (upto (sent_fb s)).
Proof.
  induction 1 as [|tr s t e s' HR IH Hstep]; [apply ledger_init|].
  eauto using ledger_step, Reach_Shape, Reach_Fb.
Qed.


(** What [Stage1] has dequeued is what its items carry. *)
Lemma drained_step cfg t tr s e s' :
  collect ev_drain tr = drained s ->
  step cfg t s = Some (e, s') ->
  collect ev_drain (e :: tr) = drained s'.
Proof.
  intros HD H.
  destruct s as [q1 q2 fbq dprod dproc pa fc pb np pc res].
  destruct t; cbn [step] in H;
    [destruct pa | destruct pb | destruct pc]; crush_step H;
    rewrite collect_cons; cbn [ev_drain]; rewrite ?app_nil_r;
    rewrite HD; ledger_norm; reflexivity.
Qed.

Lemma Reach_drained cfg tr s :
  Reach cfg tr s -> collect ev_drain tr = drained s.
Proof.
  induction 1 as [|tr s t e s' HR IH Hstep]; [reflexivity|].
  eauto using drained_step.
Qed.

(** X1: the feedback queue is first in, first out between the two stages,
    and nothing is lost: the records [Stage2] has enqueued are, in this
    order, those [Stage1] has dequeued followed by those still in the
    queue; the records dequeued are the [adjustments] of the items in
    creation order, followed by the record that [Stage1] holds between its
    [get] (line 19) and its [append] (line 22), if it is there; and the
    [k]-th record enqueued (from zero) is the one of item [k], with
    [metric = k + 1]. *)
Theorem X1_feedback_ledger cfg tr s :
  Reach cfg tr s ->
  collect ev_feedback tr = collect ev_drain tr ++ feedback s
  /\ collect ev_drain tr
     = flat_map adjustments (all_items s) ++ heldfb (pcA s)
  /\ collect ev_feedback tr = map fb_of (upto (sent_fb s)).
Proof.
  intros HR.
  pose proof (Reach_ledger HR) as HL.
  pose proof (Reach_drained HR) as HD.
  pose proof (tr_feedback (Reach_Tr HR)) as HF.
  unfold ledger in HL. split; [|split].
  - now rewrite HF, HD.
  - exact HD.
  - exact HF.
Qed.

Lemma X1_witness :
  collect ev_feedback (fst demo_end)
  = [mkFeedback 0 "increase_rate" 1; mkFeedback 1 "increase_rate" 2]
    ++ [mkFeedback 2 "increase_rate" 3].
Proof.
  exact (proj1 (@X1_feedback_ledger demo_config (fst demo_end)
                  (snd demo_end) demo_end_Reach)).
Defined.

(** ** No item is lost, repeated or reordered *)

Lemma seq_prefix {X : Type} (f : X -> Z) (l1 l2 : list X) :
  forall a m,
    map f (l1 ++ l2) = map Z.of_nat (seq a m) ->
    map f l1 = map Z.of_nat (seq a (length l1)).
Proof.
  induction l1 as [|x l1 IH]; intros a m H; [reflexivity|].
  destruct m as [|m]; [discriminate|].
  simpl in H. injection H as Hx Hl.
  simpl. rewrite Hx. f_equal. eapply IH. exact Hl.
Qed.

Lemma upto_prefix {X : Type} (f : X -> Z) (l1 l2 : list X) k :
  map f (l1 ++ l2) = upto k -> map f l1 = upto (Z.of_nat (length l1)).
Proof.
  unfold upto. intros H. rewrite Nat2Z.id. eapply seq_prefix. exact H.
Qed.

Lemma results_ids cfg tr s :
  Reach cfg tr s -> map id (results s) = upto (Z.of_nat (length (results s))).
Proof.
  intros HR. pose proof (sh_ids (Reach_Shape HR)) as Hids.
  unfold downstream in Hids. rewrite <- !app_assoc in Hids.
  now apply upto_prefix in Hids.
Qed.

(** X2: at every moment the items that exist are, in the order results,
    the item [Stage3] has dequeued and not yet appended (between lines 73
    and 76), second queue, [Stage2]'s hands, first queue, the items
    [0 .. k-1] that [Stage1] has enqueued; so the results of [Stage3] are
    at every moment the items [0 .. r-1], in this order. *)
Theorem X2_items_in_order cfg tr s :
  Reach cfg tr s ->
  map id (results s ++ heldC (pcC s) ++ items_of (stage2_to_stage3 s)
          ++ heldB_post (pcB s)
          ++ heldB_pre (pcB s) ++ items_of (stage1_to_stage2 s))
  = upto (sentA cfg (pcA s))
  /\ 0 <= sentA cfg (pcA s) <= Z.max 0 (num_items cfg)
  /\ map id (results s) = upto (Z.of_nat (length (results s))).
Proof.
  intros HR. pose proof (Reach_Shape HR) as HS.
  pose proof (sh_ids HS) as Hids.
  pose proof (Shape_bounds HS) as Hb.
  unfold downstream, upstream in Hids.
  rewrite <- !app_assoc in Hids.
  split; [exact Hids|]. split; [lia|].
  exact (results_ids HR).
Qed.

Lemma X2_witness :
  map id (results (snd demo_run)) = [0; 1].
Proof.
  exact (proj2 (proj2 (@X2_items_in_order demo_config (fst demo_run)
                         (snd demo_run) demo_Reach))).
Defined.

Lemma map_plain (l : list Item) :
  Forall post_ok l -> map plain l = map plain_result (map id l).
Proof.
  induction 1 as [|it l [Hv Hp] _ IH]; [reflexivity|].
  simpl. rewrite IH. f_equal.
  unfold plain, plain_result. now rewrite Hv, Hp.
Qed.

(** X3: apart from the [adjustments], the results do not depend on the
    interleaving: at every moment the [r] results are the items
    [0 .. r-1] with [value = 2 * (id * 10) + 1] and [processed = True],
    and when the three threads have returned there are
    [len(range(num_items))] of them. *)
Theorem X3_results_but_adjustments cfg tr s :
  Reach cfg tr s ->
  map plain (results s)
  = map plain_result (upto (Z.of_nat (length (results s))))
  /\ (final s = true ->
      Z.of_nat (length (results s)) = Z.max 0 (num_items cfg)).
Proof.
  intros HR. pose proof (Reach_Shape HR) as HS. split.
  - pose proof (sh_post HS) as Hpost. unfold downstream in Hpost.
    apply Forall_app in Hpost as [Hpost _].
    rewrite (map_plain Hpost). f_equal.
    exact (results_ids HR).
  - intros Hf. pose proof (final_ids HR Hf) as Hids.
    apply (f_equal (@length Z)) in Hids. rewrite length_map in Hids.
    rewrite Hids. apply upto_nonneg. unfold item_total. lia.
Qed.

Lemma X3_witness :
  map plain (results (snd demo_end))
  = [(0, 1, Some true); (1, 21, Some true); (2, 41, Some true)].
Proof.
  exact (proj1 (@X3_results_but_adjustments demo_config (fst demo_end)
                  (snd demo_end) demo_end_Reach)).
Defined.

(** ** The two flags *)

Lemma flags_step cfg t s e s' :
  flags_ok s -> step cfg t s = Some (e, s') -> flags_ok s'.
Proof.
  intros [H1 H2] H.
  destruct s as [q1 q2 fbq dprod dproc pa fc pb np pc res].
  unfold flags_ok in *. state_simpl.
  destruct t; cbn [step] in H;
    [destruct pa | destruct pb | destruct pc]; crush_step H;
    state_simpl; auto.
Qed.

Lemma Reach_flags cfg tr s : Reach cfg tr s -> flags_ok s.
Proof.
  induction 1 as [|tr s t e s' HR IH Hstep]; [split; reflexivity|].
  eauto using flags_step.
Qed.

Lemma past_loop_B cfg s :
  Shape cfg s -> runningB (pcB s) = false ->
  processed_count s = item_total cfg
  /\ pcA s = A_stop /\ stage1_to_stage2 s = []
  /\ map id (results s ++ heldC (pcC s) ++ items_of (stage2_to_stage3 s))
     = upto (item_total cfg).
Proof.
  intros HS Hr.
  destruct (sh_B HS Hr) as [HpA Hq1].
  pose proof (sh_ids HS) as Hids. pose proof (sh_np HS) as Hnp.
  assert (Hpost : heldB_post (pcB s) = [])
    by (destruct (pcB s); try discriminate; reflexivity).
  assert (Hpre : heldB_pre (pcB s) = [])
    by (destruct (pcB s); try discriminate; reflexivity).
  unfold downstream, upstream in *.
  rewrite HpA, Hq1, Hpost, Hpre in *. simpl in Hids.
  rewrite !app_nil_r in *.
  repeat split; auto.
  apply (f_equal (@length Z)) in Hids. rewrite length_map in Hids.
  rewrite Hnp, Hids. apply upto_nonneg. unfold item_total. lia.
Qed.

(** X4: [done_producing] is [True] exactly from line 26 on and
    [done_processing] exactly from line 60 on.  So when [done_producing]
    is set [Stage1] has enqueued all its items, and when [done_processing]
    is set [Stage2] has transformed and forwarded all of them and the
    first queue is empty: every item is in the results, in the hands of
    [Stage3] (between lines 73 and 76) or on the second queue. *)
Theorem X4_flags cfg tr s :
  Reach cfg tr s ->
  flags_ok s
  /\ (done_producing s = true ->
      sentA cfg (pcA s) = Z.max 0 (num_items cfg))
  /\ (done_processing s = true ->
      processed_count s = Z.max 0 (num_items cfg)
      /\ done_producing s = true
      /\ stage1_to_stage2 s = []
      /\ map id (results s ++ heldC (pcC s)
                 ++ items_of (stage2_to_stage3 s))
         = upto (Z.max 0 (num_items cfg))).
Proof.
  intros HR. pose proof (Reach_flags HR) as [H1 H2].
  pose proof (Reach_Shape HR) as HS.
  split; [split; assumption|]. split.
  - rewrite H1. destruct (pcA s); try discriminate; reflexivity.
  - rewrite H2. intros Hp.
    assert (Hr : runningB (pcB s) = false)
      by (destruct (pcB s); try discriminate; reflexivity).
    destruct (past_loop_B HS Hr) as (Hnp & HpA & Hq & Hids).
    repeat split; auto.
    rewrite H1, HpA. reflexivity.
Qed.

Lemma X4_witness :
  done_producing (snd demo_end) = true
  /\ processed_count (snd demo_end) = 3.
Proof.
  destruct (@X4_flags demo_config (fst demo_end) (snd demo_end)
              demo_end_Reach) as ([H1 _] & _ & H3).
  split; [exact H1|]. now apply H3.
Defined.

(** X5: no transition reads the flags: with other values in them the
    same thread makes the same transition, to the same state but for the
    flags, and a thread that is blocked stays blocked. *)
Theorem X5_flags_not_read cfg t b1 b2 s :
  match step cfg t s with
  | Some (e, s') =>
      exists s'',
        step cfg t (with_flags b1 b2 s) = Some (e, s'')
        /\ with_flags false false s'' = with_flags false false s'
  | None => step cfg t (with_flags b1 b2 s) = None
  end.
Proof.
  destruct s as [q1 q2 fbq dprod dproc pa fc pb np pc res].
  unfold with_flags. state_simpl.
  destruct t; cbn [step];
    [destruct pa | destruct pb | destruct pc]; simpl;
    repeat match goal with
      | |- context [if ?b then _ else _] => destruct b
      | |- context [match Queue.put ?m ?x ?q with _ => _ end] =>
          destruct (Queue.put m x q)
      | |- context [Queue.get ?q] => destruct q as [|? ?]; simpl
      | |- context [match ?m with Some _ => _ | None => _ end] =>
          is_var m; destruct m
      end;
    simpl; eauto.
Qed.

(** ** Backpressure *)

(** Splitting a transition, keeping what a successful [put] tells about
    the size of the queue. *)
Ltac room_step H :=
  simpl in H;
  repeat match type of H with
    | context [if ?b then _ else _] => destruct b eqn:?
    | context [match Queue.get ?q with _ => _ end] =>
        destruct q as [|? ?]; simpl in H
    | context [match ?m with Some _ => _ | None => _ end] =>
        is_var m; destruct m
    | context [match Queue.put ?m ?x ?q with _ => _ end] =>
        let E := fresh "Eput" in
        let q' := fresh "q'" in
        let Hroom := fresh "Hroom" in
        destruct (Queue.put m x q) as [q'|] eqn:E;
        [pose proof (@put_Some_room _ _ _ _ _ E) as Hroom; clear E|]
    end;
  try discriminate H;
  injection H as <- <-.

Lemma sizes_step cfg t s e s' :
  (0 < max_12 cfg ->
   Z.of_nat (length (stage1_to_stage2 s)) <= max_12 cfg) ->
  (0 < max_23 cfg ->
   Z.of_nat (length (stage2_to_stage3 s)) <= max_23 cfg) ->
  (0 < max_fb cfg -> Z.of_nat (length (feedback s)) <= max_fb cfg) ->
  step cfg t s = Some (e, s') ->
  (0 < max_12 cfg ->
   Z.of_nat (length (stage1_to_stage2 s')) <= max_12 cfg)
  /\ (0 < max_23 cfg ->
      Z.of_nat (length (stage2_to_stage3 s')) <= max_23 cfg)
  /\ (0 < max_fb cfg -> Z.of_nat (length (feedback s')) <= max_fb cfg).
Proof.
  intros H1 H2 H3 H.
  destruct s as [q1 q2 fbq dprod dproc pa fc pb np pc res].
  state_simpl.
  destruct t; cbn [step] in H;
    [destruct pa | destruct pb | destruct pc]; room_step H;
    state_simpl; repeat split; auto;
    cbn [length] in *; unfold Msg in *; intros; lia.
Qed.

(** X6: a queue built with a positive [maxsize] never holds more than
    [maxsize] elements: a stage that finds it full waits. *)
Theorem X6_queues_bounded cfg tr s :
  Reach cfg tr s ->
  (0 < max_12 cfg ->
   Z.of_nat (length (stage1_to_stage2 s)) <= max_12 cfg)
  /\ (0 < max_23 cfg ->
      Z.of_nat (length (stage2_to_stage3 s)) <= max_23 cfg)
  /\ (0 < max_fb cfg -> Z.of_nat (length (feedback s)) <= max_fb cfg).
Proof.
  induction 1 as [|tr s t e s' HR IH Hstep].
  - simpl. repeat split; intros; lia.
  - destruct IH as (H1 & H2 & H3). eapply sizes_step; eauto.
Qed.

Lemma X6_witness :
  Z.of_nat (length (feedback (snd demo_end))) <= 3.
Proof.
  destruct (@X6_queues_bounded demo_config (fst demo_end) (snd demo_end)
              demo_end_Reach) as (_ & _ & H).
  apply H. reflexivity.
Defined.

(** ** Where a run can stop *)



Lemma demo_stuck_Reach :
  Reach (pipeline_config 2 1) (fst demo_stuck) (snd demo_stuck).
Proof.
  exact (exec_Reach (deadlock_schedule ++ [TA; TA; TA; TC; TC])
           (Reach_init (pipeline_config 2 1))).
Qed.

(** X8: the only place where the pipeline can stop before the three
    threads have returned is line 55: if no thread can move, [Stage2]
    waits there on a full feedback queue, whose capacity is then smaller
    than the number of items; [Stage3] waits on an empty queue, and
    [Stage1] has returned or waits at line 24 or 28 on a full queue, past
    its check for feedback. *)
Theorem X8_deadlock_at_feedback cfg tr s :
  Reach cfg tr s -> final s = false -> stuck cfg s = true ->
  (exists it fb, pcB s = B_fb it fb)
  /\ 0 < max_fb cfg <= Z.of_nat (length (feedback s))
  /\ max_fb cfg < Z.max 0 (num_items cfg)
  /\ pcC s = C_get /\ stage2_to_stage3 s = []
  /\ (pcA s = A_stop
      \/ ((exists i it, pcA s = A_put i it) \/ pcA s = A_sentinel)
         /\ 0 < max_12 cfg <= Z.of_nat (length (stage1_to_stage2 s))).
Proof.
  intros HR Hfin Hst.
  pose proof (Reach_Shape HR) as HS. pose proof (Reach_Fb HR) as HF.
  apply stuck_true in Hst as (EA & EB & EC).
  apply stepA_None in EA. apply stepB_None in EB. apply stepC_None in EC.
  pose proof (Shape_bounds HS) as Hb.
  pose proof (fb_cnt HF) as Hcnt.
  pose proof (fb_get HF) as Hget.
  pose proof (sh_q12 HS) as Hq12. pose proof (sh_q23 HS) as Hq23.
  pose proof (sh_B HS) as HB. pose proof (sh_C HS) as HC.
  destruct s as [q1 q2 fbq dprod dproc pa fc pb np pc res].
  assert (Hfc : 0 <= fc)
    by (pose proof (fb_fc HF) as E; cbn [feedback_count pcA] in E;
        rewrite E; unfold adjustments_total, unappended; destruct pa; lia).
  pose proof (uncounted_bounds pa) as Hun.
  clear HS HF HR.
  unfold final, sent_fb in *. state_simpl.
  destruct EC as [-> | [-> ->]].
  - destruct (HC eq_refl) as [-> _].
    destruct (HB eq_refl) as [-> _]. discriminate.
  - destruct pb; state_simpl; try contradiction;
      cbn [length] in *; try lia.
    + subst q1.
      destruct pa; state_simpl; try contradiction;
        cbn [length] in *; try lia; discriminate.
    + (* line 55 *)
      split; [eauto|]. split; [lia|]. split; [lia|].
      split; [reflexivity|]. split; [reflexivity|].
      destruct pa; try contradiction.
      * right. split; [left; eauto | exact EA].
      * right. split; [right; reflexivity | exact EA].
      * left. reflexivity.
    + discriminate.
Qed.

Lemma X8_witness :
  (exists it fb, pcB (snd demo_stuck) = B_fb it fb)
  /\ 0 < 1 <= Z.of_nat (length (feedback (snd demo_stuck))).
Proof.
  destruct (@X8_deadlock_at_feedback (pipeline_config 2 1)
              (fst demo_stuck) (snd demo_stuck) demo_stuck_Reach)
    as (H1 & H2 & _); [reflexivity | reflexivity |].
  split; [exact H1 | exact H2].
Defined.

(** X9: when the feedback queue is bounded and no larger than the first
    queue, some interleaving blocks exactly when there are more items than
    the feedback queue holds. *)
Theorem X9_blocking_threshold cfg :
  0 < max_fb cfg <= max_12 cfg ->
  ((exists sched tr s,
      run cfg sched (enough_fuel cfg) 0 [] init = Blocked tr s)
   <-> max_fb cfg < num_items cfg).
Proof.
  intros Hcap. split.
  - intros (sched & tr & s & E).
    pose proof (run_sound sched (enough_fuel cfg) 0 (Reach_init cfg)) as Hok.
    rewrite E in Hok. destruct Hok as (HR & Hfin & Hst).
    destruct (Z.lt_ge_cases (max_fb cfg) (num_items cfg)) as [Hlt|Hge];
      [exact Hlt|].
    assert (Hroom : feedback_roomy cfg)
      by (right; unfold item_total; lia).
    rewrite (progress Hroom (Reach_Shape HR) (Reach_Fb HR) Hfin) in Hst.
    discriminate.
  - intros Hlt. exists producer_first.
    now apply producer_first_blocks.
Qed.

Lemma X9_witness :
  exists sched tr s,
    run (mkConfig 5 4 1 2) sched (enough_fuel (mkConfig 5 4 1 2)) 0 [] init
    = Blocked tr s.
Proof.
  apply (@X9_blocking_threshold (mkConfig 5 4 1 2)); simpl; lia.
Defined.

(** X10: a [num_items] that is zero or negative gives an empty range:
    under every scheduler and with any capacities the three threads
    return, no item is created, no feedback record is made, and the
    result is empty. *)
Theorem X10_empty_range cfg sched :
  num_items cfg <= 0 ->
  exists tr s,
    run cfg sched (enough_fuel cfg) 0 [] init = Returned tr s
    /\ results s = [] /\ collect ev_create tr = []
    /\ collect ev_made tr = [] /\ feedback s = [].
Proof.
  intros Hn.
  assert (Ht : item_total cfg = 0) by (unfold item_total; lia).
  assert (Hroom : feedback_roomy cfg).
  { unfold feedback_roomy. rewrite Ht. lia. }
  destruct (run_returns sched Hroom) as (tr & s & E & HR & Hf).
  exists tr, s. split; [exact E|].
  pose proof (final_ids HR Hf) as Hids. rewrite Ht in Hids.
  apply final_pcs in Hf as (HpA & HpB & HpC).
  pose proof (Reach_Tr HR) as HT.
  pose proof (tr_create HT) as Hcr. pose proof (tr_made HT) as Hm.
  pose proof (stopped_B_count (Reach_Shape HR) HpB) as Hnp.
  pose proof (fb_cnt (Reach_Fb HR)) as Hcnt.
  pose proof (fb_fc (Reach_Fb HR)) as Hfc.
  rewrite HpA in Hcr. simpl in Hcr.
  fold (item_total cfg) in Hcr. rewrite Ht in Hcr. rewrite Hnp, Ht in Hm.
  unfold sent_fb in Hcnt. rewrite HpA, HpB, Hnp, Ht in Hcnt.
  rewrite HpA in Hfc. cbn [uncounted unappended] in Hcnt, Hfc.
  repeat split.
  - now apply map_id_nil.
  - now apply map_id_nil.
  - exact Hm.
  - unfold adjustments_total in Hfc.
    destruct (feedback s); [reflexivity|]. cbn [length] in Hcnt. lia.
Qed.

Lemma X10_witness :
  exists tr s,
    run (mkConfig (-3) 0 2 1) (schedule [TC; TB])
        (enough_fuel (mkConfig (-3) 0 2 1)) 0 [] init = Returned tr s
    /\ results s = [].
Proof.
  destruct (@X10_empty_range (mkConfig (-3) 0 2 1) (schedule [TC; TB]))
    as (tr & s & E & Hres & _); [simpl; lia|].
  exists tr, s. split; [exact E | exact Hres].
Defined.

(** X11: with a feedback queue that is unbounded ([maxsize <= 0]) or
    holds one record per item, the three threads return under every
    scheduler, whatever the capacities of the two forward queues; the
    results are then the items [0 .. n-1] in order, and every feedback
    record has been dequeued by [Stage1] or is still in the queue. *)
Theorem X11_room_for_feedback cfg sched :
  max_fb cfg <= 0 \/ Z.max 0 (num_items cfg) <= max_fb cfg ->
  exists tr s,
    run cfg sched (enough_fuel cfg) 0 [] init = Returned tr s
    /\ map id (results s) = upto (Z.max 0 (num_items cfg))
    /\ feedback_count s + Z.of_nat (length (feedback s))
       = Z.max 0 (num_items cfg).
Proof.
  intros Hroom.
  destruct (run_returns sched Hroom) as (tr & s & E & HR & Hf).
  exists tr, s. split; [exact E|].
  split; [exact (final_ids HR Hf)|].
  apply final_pcs in Hf as (HpA & HpB & HpC).
  pose proof (stopped_B_count (Reach_Shape HR) HpB) as Hnp.
  pose proof (fb_cnt (Reach_Fb HR)) as Hcnt.
  unfold sent_fb in Hcnt. rewrite HpA, HpB, Hnp in Hcnt.
  cbn [uncounted] in Hcnt.
  unfold item_total in Hcnt. lia.
Qed.

Lemma X11_witness :
  exists tr s,
    run (mkConfig 4 1 1 0) producer_first
        (enough_fuel (mkConfig 4 1 1 0)) 0 [] init = Returned tr s
    /\ map id (results s) = [0; 1; 2; 3].
Proof.
  destruct (@X11_room_for_feedback (mkConfig 4 1 1 0) producer_first)
    as (tr & s & E & Hids & _); [left; simpl; lia|].
  exists tr, s. split; [exact E | exact Hids].
Defined.

(** ** Shutdown *)

Lemma no_sentinel (l : list Item) : ~ In None (map Some l).
Proof.
  intros H. apply in_map_iff in H as (x & Hx & _). discriminate.
Qed.

Lemma sentinel_last (q : list Msg) (b : bool) :
  q = map Some (items_of q) ++ (if b then [None] else []) ->
  In None q -> b = true /\ q = map Some (items_of q) ++ [None].
Proof.
  intros Hq Hin. destruct b; [auto|].
  rewrite app_nil_r in Hq. rewrite Hq in Hin.
  now apply no_sentinel in Hin.
Qed.

(** X12: the sentinel travels behind the items.  [None] is on the first
    queue only as its last element and only once [Stage1] has returned;
    [Stage2] leaves its loop only when it has transformed all the items
    and the first queue is empty; [None] is on the second queue only as its
    last element and only once [Stage2] has returned; and when [Stage3] has
    returned the other two have, both forward queues are empty and the
    results are all the items. *)
Theorem X12_shutdown_order cfg tr s :
  Reach cfg tr s ->
  (In None (stage1_to_stage2 s) ->
     pcA s = A_stop
     /\ stage1_to_stage2 s
        = map Some (items_of (stage1_to_stage2 s)) ++ [None])
  /\ (runningB (pcB s) = false ->
        processed_count s = Z.max 0 (num_items cfg)
        /\ pcA s = A_stop /\ stage1_to_stage2 s = [])
  /\ (In None (stage2_to_stage3 s) ->
        pcB s = B_stop
        /\ stage2_to_stage3 s
           = map Some (items_of (stage2_to_stage3 s)) ++ [None])
  /\ (pcC s = C_stop ->
        pcA s = A_stop /\ pcB s = B_stop
        /\ stage1_to_stage2 s = [] /\ stage2_to_stage3 s = []
        /\ map id (results s) = upto (Z.max 0 (num_items cfg))).
Proof.
  intros HR. pose proof (Reach_Shape HR) as HS.
  split; [|split; [|split]].
  - intros Hin.
    destruct (@sentinel_last _ _ (sh_q12 HS) Hin) as [Hb Hq].
    split; [|exact Hq].
    apply andb_prop in Hb as [Hb _].
    destruct (pcA s); try discriminate; reflexivity.
  - intros Hr. destruct (past_loop_B HS Hr) as (H1 & H2 & H3 & _).
    auto.
  - intros Hin.
    destruct (@sentinel_last _ _ (sh_q23 HS) Hin) as [Hb Hq].
    split; [|exact Hq].
    apply andb_prop in Hb as [Hb _].
    destruct (pcB s); try discriminate; reflexivity.
  - intros HpC.
    destruct (sh_C HS HpC) as [HpB Hq2].
    assert (Hr : runningB (pcB s) = false) by now rewrite HpB.
    destruct (sh_B HS Hr) as [HpA Hq1].
    destruct (stopped_results HS HpC) as (Hids & _ & _).
    auto.
Qed.

Lemma X12_witness :
  pcA (snd demo_stuck) = A_stop
  /\ stage1_to_stage2 (snd demo_stuck)
     = map Some (items_of (stage1_to_stage2 (snd demo_stuck))) ++ [None].
Proof.
  apply (@X12_shutdown_order (pipeline_config 2 1) (fst demo_stuck)
           (snd demo_stuck) demo_stuck_Reach).
  simpl. auto.
Defined.

(** ** The record of the last item *)

(** X13: [Stage1] never reads the record of its last item: it dequeues at
    most [num_items - 1] records, and when the three threads have returned
    the feedback queue is not empty; its last element is the record of
    item [num_items - 1]. *)
Theorem X13_last_record_not_read cfg tr s :
  Reach cfg tr s -> 0 < num_items cfg ->
  feedback_count s <= num_items cfg - 1
  /\ (final s = true ->
      exists q, feedback s = q ++ [fb_of (num_items cfg - 1)]).
Proof.
  intros HR Hn. pose proof (Reach_last_check HR) as Hle.
  unfold readable in Hle.
  split; [lia|]. intros Hf.
  apply final_pcs in Hf as (HpA & HpB & _).
  pose proof (stopped_B_count (Reach_Shape HR) HpB) as Hnp.
  pose proof (fb_cnt (Reach_Fb HR)) as Hcnt.
  pose proof (Reach_ledger HR) as HL.
  rewrite HpA in Hcnt. cbn [uncounted] in Hcnt.
  unfold sent_fb in Hcnt, HL. rewrite HpB, Hnp in Hcnt, HL.
  unfold item_total in Hcnt, HL. rewrite Z.max_r in Hcnt, HL by lia.
  replace (num_items cfg) with (num_items cfg - 1 + 1) in HL at 1 by lia.
  rewrite upto_succ, map_app in HL by lia. simpl in HL.
  destruct (feedback s) as [|x l] eqn:Eq using rev_ind.
  - simpl in Hcnt. lia.
  - clear IHl. unfold ledger in HL. rewrite Eq in HL.
    rewrite app_assoc in HL.
    apply app_inj_tail in HL as [_ ->]. eauto.
Qed.

Lemma X13_witness :
  exists q, feedback (snd demo_end) = q ++ [fb_of (3 - 1)].
Proof.
  destruct (@X13_last_record_not_read demo_config (fst demo_end)
              (snd demo_end) demo_end_Reach) as [_ H]; [simpl; lia|].
  apply H. reflexivity.
Defined.

(** * [deep_merge] *)

Section MergerFacts.

Context {K : Type} {K_eq : EqDec K} {A : Type}.

Implicit Types (k key : K) (v : Val K A) (d base overlay result : PyDict K A).

Lemma deep_merge_cons base key v overlay :
  deep_merge base ((key, v) :: overlay)
  = deep_merge (merge_entry key v base) overlay.
Proof.
  unfold deep_merge, merge_entry. simpl.
  destruct (dict_get key base) as [[a|bd]|], v as [a'|od]; reflexivity.
Qed.

Lemma merge_entry_set key v result :
  merge_entry key v result
  = dict_set key (merged_value (dict_get key result) v) result.
Proof.
  unfold merge_entry, merged_value.
  destruct (dict_get key result) as [[a|bd]|], v as [a'|od]; reflexivity.
Qed.

Lemma get_set_same k v d : dict_get k (dict_set k v d) = Some v.
Proof.
  induction d as [|[k' v'] d IH]; simpl.
  - destruct (eq_dec k k); congruence.
  - destruct (eq_dec k k') as [E|E]; simpl.
    + destruct (eq_dec k k'); congruence.
    + destruct (eq_dec k k'); congruence.
Qed.

Lemma get_set_other k k' v d :
  k <> k' -> dict_get k (dict_set k' v d) = dict_get k d.
Proof.
  intros Hne. induction d as [|[k2 v2] d IH]; simpl.
  - destruct (eq_dec k k'); congruence.
  - destruct (eq_dec k' k2) as [E|E]; simpl.
    + subst. destruct (eq_dec k k2); congruence.
    + destruct (eq_dec k k2); congruence.
Qed.

Lemma get_None k d : dict_get k d = None <-> ~ In k (keys d).
Proof.
  induction d as [|[k' v'] d IH]; simpl; [tauto|].
  destruct (eq_dec k k') as [E|E].
  - split; [discriminate|]. intros H. exfalso. apply H. left. congruence.
  - rewrite IH. split; [intros H [E'|Hin]; [congruence | tauto] | tauto].
Qed.

Lemma get_In k v d : NoDup (keys d) -> In (k, v) d -> dict_get k d = Some v.
Proof.
  induction d as [|[k' v'] d IH]; simpl; [tauto|].
  intros Hnd Hin. inversion Hnd as [|? ? Hnot Hnd']; subst.
  destruct Hin as [E|Hin].
  - injection E as -> ->. destruct (eq_dec k k); congruence.
  - destruct (eq_dec k k') as [E|E]; [|auto].
    subst. exfalso. apply Hnot. unfold keys.
    change k' with (fst (k', v)). now apply in_map.
Qed.

Lemma get_Some_In k v d : dict_get k d = Some v -> In (k, v) d.
Proof.
  induction d as [|[k' v'] d IH]; simpl; [discriminate|].
  destruct (eq_dec k k') as [E|E].
  - intros [= ->]. left. congruence.
  - intros H. right. auto.
Qed.

Lemma set_get k v d : dict_get k d = Some v -> dict_set k v d = d.
Proof.
  induction d as [|[k' v'] d IH]; simpl; [discriminate|].
  destruct (eq_dec k k') as [E|E].
  - now intros [= ->].
  - intros H. now rewrite IH.
Qed.

Lemma keys_set k v d :
  keys (dict_set k v d) = keys d ++ (if has_key k d then [] else [k]).
Proof.
  unfold has_key. induction d as [|[k' v'] d IH]; simpl; [reflexivity|].
  destruct (eq_dec k k') as [E|E]; simpl.
  - now rewrite app_nil_r.
  - now rewrite IH.
Qed.

Lemma has_key_In k d : has_key k d = true <-> In k (keys d).
Proof.
  unfold has_key. destruct (dict_get k d) eqn:E.
  - split; [intros _|reflexivity].
    destruct (in_dec eq_dec k (keys d)) as [H|H]; [exact H|].
    apply get_None in H. congruence.
  - apply get_None in E. split; [discriminate | tauto].
Qed.

Lemma has_key_set k k' v d :
  has_key k (dict_set k' v d) = (if eq_dec k k' then true else has_key k d).
Proof.
  unfold has_key. destruct (eq_dec k k') as [E|E].
  - subst. now rewrite get_set_same.
  - now rewrite get_set_other.
Qed.

Lemma set_missing k v d : ~ In k (keys d) -> dict_set k v d = d ++ [(k, v)].
Proof.
  induction d as [|[k2 v2] d IH]; simpl; [reflexivity|].
  intros H. destruct (eq_dec k k2) as [E|E].
  - exfalso. apply H. left. congruence.
  - rewrite IH; [reflexivity|]. intros Hin. apply H. now right.
Qed.

Lemma In_set k v d k2 v2 :
  In (k2, v2) (dict_set k v d) -> (k2 = k /\ v2 = v) \/ In (k2, v2) d.
Proof.
  induction d as [|[k' v'] d IH]; simpl.
  - intros [[= <- <-]|[]]. now left.
  - destruct (eq_dec k k') as [E|E]; simpl.
    + intros [[= <- <-]|H]; [left; split; congruence | right; now right].
    + intros [H|H]; [right; now left|].
      destruct (IH H) as [?|?]; [now left | right; now right].
Qed.

Lemma NoDup_set k v d : NoDup (keys d) -> NoDup (keys (dict_set k v d)).
Proof.
  intros Hnd. rewrite keys_set. destruct (has_key k d) eqn:E.
  - now rewrite app_nil_r.
  - apply NoDup_app; [exact Hnd | repeat constructor; intros [] |].
    intros x Hx [<-|[]]. apply has_key_In in Hx. congruence.
Qed.

Lemma deep_merge_get base overlay k :
  NoDup (keys overlay) ->
  dict_get k (deep_merge base overlay)
  = match dict_get k overlay with
    | None => dict_get k base
    | Some v => Some (merged_value (dict_get k base) v)
    end.
Proof.
  revert base. induction overlay as [|[k' v'] items IH]; intros base Hnd.
  - reflexivity.
  - rewrite deep_merge_cons. inversion Hnd as [|? ? Hnot Hnd']; subst.
    rewrite (IH _ Hnd'). rewrite merge_entry_set. simpl.
    destruct (eq_dec k k') as [E|E].
    + subst. apply get_None in Hnot. rewrite Hnot.
      apply get_set_same.
    + now rewrite (get_set_other _ _ E).
Qed.

Lemma deep_merge_keys base overlay :
  NoDup (keys overlay) ->
  keys (deep_merge base overlay)
  = keys base ++ filter (missing_from base) (keys overlay).
Proof.
  revert base. induction overlay as [|[k' v'] items IH]; intros base Hnd.
  - simpl. now rewrite app_nil_r.
  - rewrite deep_merge_cons, merge_entry_set.
    inversion Hnd as [|? ? Hnot Hnd']; subst.
    rewrite (IH _ Hnd'), keys_set, <- app_assoc. f_equal.
    simpl. unfold missing_from at 2.
    assert (Hf : filter (missing_from
                           (dict_set k' (merged_value (dict_get k' base) v') base))
                   (keys items) = filter (missing_from base) (keys items)).
    { apply filter_ext_in. intros k Hin. unfold missing_from.
      rewrite has_key_set.
      destruct (eq_dec k k'); [subst; contradiction | reflexivity]. }
    rewrite Hf. destruct (has_key k' base); reflexivity.
Qed.

Lemma deep_merge_apart base overlay :
  NoDup (keys overlay) ->
  (forall k, In k (keys base) -> ~ In k (keys overlay)) ->
  deep_merge base overlay = base ++ overlay.
Proof.
  revert base. induction overlay as [|[k' v'] items IH]; intros base Hnd Hd.
  - simpl. now rewrite app_nil_r.
  - rewrite deep_merge_cons, merge_entry_set.
    inversion Hnd as [|? ? Hnot Hnd']; subst.
    assert (Hk : ~ In k' (keys base)).
    { intros H. apply (Hd _ H). now left. }
    pose proof Hk as Hg. apply get_None in Hg. rewrite Hg.
    replace (merged_value None v') with v' by (destruct v'; reflexivity).
    rewrite (@set_missing k' v' base Hk), IH, <- app_assoc;
      [reflexivity | exact Hnd' |].
    intros k Hin Hin'. unfold keys in Hin. rewrite map_app in Hin.
    apply in_app_or in Hin. destruct Hin as [Hin|[<-|[]]].
    + apply (Hd _ Hin). now right.
    + contradiction.
Qed.

(** Entries that [result] already holds, merged into it, change nothing. *)
Lemma deep_merge_fixed result overlay :
  (forall k v, In (k, v) overlay ->
     exists old, dict_get k result = Some (merged_value old v)
                 /\ merged_value (Some (merged_value old v)) v
                    = merged_value old v) ->
  deep_merge result overlay = result.
Proof.
  induction overlay as [|[k v] items IH]; intros H.
  - reflexivity.
  - rewrite deep_merge_cons, merge_entry_set.
    destruct (H k v (or_introl eq_refl)) as (old & Hg & Hm).
    rewrite Hg, Hm, (set_get _ _ Hg).
    apply IH. intros k2 v2 Hin. apply H. now right.
Qed.

Lemma deep_merge_self v :
  wf v -> match v with Atom _ => True | Dict d => deep_merge d d = d end.
Proof.
  induction 1 as [a|d Hnd Hwf IH]; [exact I|].
  apply deep_merge_fixed. intros k v Hin.
  exists (Some v).
  assert (Hm : merged_value (Some v) v = v).
  { specialize (IH _ _ Hin). destruct v as [a|od]; [reflexivity|].
    simpl. now rewrite IH. }
  rewrite Hm. split; [now apply get_In | exact Hm].
Qed.

Lemma merged_self v : wf v -> merged_value (Some v) v = v.
Proof.
  intros Hwf. pose proof (deep_merge_self Hwf) as H.
  destruct v as [a|od]; [reflexivity|]. simpl. now rewrite H.
Qed.

Lemma deep_merge_again v :
  wf v ->
  match v with
  | Atom _ => True
  | Dict od => forall bd, deep_merge (deep_merge bd od) od = deep_merge bd od
  end.
Proof.
  induction 1 as [a|d Hnd Hwf IH]; [exact I|].
  intros bd. apply deep_merge_fixed. intros k v Hin.
  exists (dict_get k bd). split.
  - now rewrite (@deep_merge_get bd d k Hnd), (@get_In k v d Hnd Hin).
  - specialize (IH _ _ Hin). specialize (Hwf _ _ Hin).
    destruct (dict_get k bd) as [[a|bd']|], v as [a'|od];
      try (apply merged_self; exact Hwf).
    simpl. now rewrite IH.
Qed.

Lemma merge_wf v :
  wf v ->
  match v with
  | Atom _ => True
  | Dict od => forall bd, wf (Dict bd) -> wf (Dict (deep_merge bd od))
  end.
Proof.
  induction 1 as [a|d Hnd Hwf IH]; [exact I|].
  assert (Hloop : forall items,
             (forall k v, In (k, v) items -> In (k, v) d) ->
             forall bd, wf (Dict bd) -> wf (Dict (deep_merge bd items))).
  { induction items as [|[k v] items IHi]; intros Hsub bd Hbd.
    - exact Hbd.
    - rewrite deep_merge_cons, merge_entry_set.
      apply IHi; [intros; apply Hsub; now right|].
      inversion Hbd as [|? Hndb Hwfb]; subst.
      constructor; [now apply NoDup_set|].
      intros k2 v2 Hin2. apply In_set in Hin2 as [[-> ->]|Hin2];
        [|exact (Hwfb _ _ Hin2)].
      assert (Hin : In (k, v) d) by (apply Hsub; now left).
      specialize (IH _ _ Hin). specialize (Hwf _ _ Hin).
      destruct (dict_get k bd) as [[a|bd']|] eqn:Eg, v as [a'|od];
        try exact Hwf.
      simpl. apply IH. apply (Hwfb k). now apply get_Some_In. }
  intros bd. apply Hloop. auto.
Qed.

(** X14: what [deep_merge] leaves under a key.  A key the overlay lacks
    keeps the value of [base]; a key of the overlay gets the overlay's value,
    except that two dicts are merged recursively.  A value of the overlay
    that is no dict, [None] included, replaces whatever [base] had, a dict
    too; no key is ever removed. *)
Theorem X14_merge_lookup base overlay k :
  NoDup (keys overlay) ->
  dict_get k (deep_merge base overlay)
  = match dict_get k overlay with
    | None => dict_get k base
    | Some v =>
        Some (match dict_get k base, v with
              | Some (Dict bd), Dict od => Dict (deep_merge bd od)
              | _, _ => v
              end)
    end.
Proof.
  intros Hnd. rewrite (@deep_merge_get base overlay k Hnd).
  destruct (dict_get k overlay) as [v|]; reflexivity.
Qed.

(** X15: the result lists the keys of [base] first, in their order, and
    then the keys that only the overlay has, in the overlay's order. *)
Theorem X15_merge_key_order base overlay :
  NoDup (keys overlay) ->
  keys (deep_merge base overlay)
  = keys base ++ filter (missing_from base) (keys overlay).
Proof.
  apply deep_merge_keys.
Qed.

(** X16: when [base] and the overlay share no key, the merge is [base]
    followed by the overlay; so merging into the empty dict gives the
    overlay back. *)
Theorem X16_merge_apart base overlay :
  NoDup (keys overlay) ->
  (forall k, In k (keys base) -> ~ In k (keys overlay)) ->
  deep_merge base overlay = base ++ overlay
  /\ deep_merge [] overlay = overlay.
Proof.
  intros Hnd Hd. split; [now apply deep_merge_apart|].
  apply (@deep_merge_apart [] overlay Hnd). intros k [].
Qed.

(** X17: merging the same overlay a second time changes nothing, and a
    dict merged with itself is that dict. *)
Theorem X17_merge_idempotent base overlay :
  wf (Dict overlay) ->
  deep_merge (deep_merge base overlay) overlay = deep_merge base overlay
  /\ deep_merge overlay overlay = overlay.
Proof.
  intros Hwf. split.
  - exact (deep_merge_again Hwf base).
  - exact (deep_merge_self Hwf).
Qed.

(** X18: the merge of two dicts is a dict: no key occurs twice in the
    result, at any depth. *)
Theorem X18_merge_well_formed base overlay :
  wf (Dict base) -> wf (Dict overlay) -> wf (Dict (deep_merge base overlay)).
Proof.
  intros Hb Ho. exact (merge_wf Ho base Hb).
Qed.

End MergerFacts.

Ltac nodup_keys :=
  repeat (constructor; [simpl; intuition discriminate|]); constructor.

Ltac dict_wf :=
  lazymatch goal with
  | |- wf (Atom _) => apply wf_atom
  | |- wf (Dict _) =>
      apply wf_dict;
      [ nodup_keys
      | let H := fresh "Hin" in
        intros ? ? H; simpl in H;
        repeat (destruct H as [H|H];
                [injection H as <- <-; dict_wf|]);
        destruct H ]
  end.

Lemma demo_overlay_keys : NoDup (keys demo_overlay).
Proof. nodup_keys. Qed.

Lemma demo_base_wf : wf (Dict demo_base).
Proof. dict_wf. Qed.

Lemma demo_overlay_wf : wf (Dict demo_overlay).
Proof. dict_wf. Qed.

Lemma X14_witness :
  dict_get "cache"%string (deep_merge demo_base demo_overlay)
  = Some (Atom PyNone).
Proof.
  exact (@X14_merge_lookup _ _ _ demo_base demo_overlay "cache"%string
           demo_overlay_keys).
Defined.

Lemma X15_witness :
  keys (deep_merge demo_base demo_overlay)
  = ["database"; "debug"; "cache"; "name"]%string.
Proof.
  exact (@X15_merge_key_order _ _ _ demo_base demo_overlay demo_overlay_keys).
Defined.

Lemma X16_witness :
  deep_merge demo_base [("name"%string, Atom (PyStr "production"))]
  = demo_base ++ [("name"%string, Atom (PyStr "production"))].
Proof.
  apply (@X16_merge_apart _ _ _ demo_base
           [("name"%string, Atom (PyStr "production"))]).
  - nodup_keys.
  - simpl. intros k H [<-|[]]. intuition discriminate.
Defined.

Lemma X17_witness :
  deep_merge (deep_merge demo_base demo_overlay) demo_overlay
  = deep_merge demo_base demo_overlay.
Proof.
  apply (@X17_merge_idempotent _ _ _ demo_base demo_overlay demo_overlay_wf).
Defined.

Lemma X18_witness : wf (Dict (deep_merge demo_base demo_overlay)).
Proof.
  exact (@X18_merge_well_formed _ _ _ demo_base demo_overlay
           demo_base_wf demo_overlay_wf).
Defined.
